(** * Human-in-the-loop interrupt detection and resume (hook [useChat])

    A shallow embedding of the interrupt detector ([checkInterrupts]), the
    resume coordinator ([resumeRun]) and the two React effects that bind them
    to the conversation, as written in [src/app/hooks/useChat.ts].

    The hook's mutable cells are threaded explicitly: the React state
    [interruptState], the two refs [handledInterruptIdsRef] and
    [lastInterruptIdRef], and one [cancelled] cell per run of the detector
    effect.  The cell for [interruptState] holds the value most recently
    passed to [setInterruptState], which is what the next render displays
    and what the [resumeRun] created by that render reads; the value the
    latest render did see is kept beside the cells.  Every call of
    [setInterruptState] and of [stream.submit] is recorded in a trace, so
    that statements about "publishing" and about the order of mutations can
    be made on the calls themselves.

    Interrupt ids follow the SDK's type [id?: string]: [None] is a missing
    id, and the empty string is present but falsy, exactly as in the code's
    tests [interruptId && ...] and [interruptId || null]. *)

From Stdlib Require Import Ascii.
From stdpp Require Import gmap strings list pretty.

Set Default Proof Using "Type".
Open Scope string_scope.
Open Scope list_scope.

(** ** Data *)

(** Opaque JSON payloads (tool arguments, run state). *)
Unset Elimination Schemes.
Inductive Json :=
| JNull
| JBool (b : bool)
| JNum (z : Z)
| JStr (s : string)
| JArr (l : list Json)
| JObj (l : list (string * Json)).
Set Elimination Schemes.

(** JavaScript truthiness of a JSON value. *)
Definition json_truthy (j : Json) : bool :=
  match j with
  | JNull => false
  | JBool b => b
  | JNum z => negb (Z.eqb z 0)
  | JStr s => match s with EmptyString => false | _ => true end
  | JArr _ | JObj _ => true
  end.

(** An optional string property: [None] is [undefined]; the empty string is
    present but falsy. *)
Definition truthy (s : option string) : bool :=
  match s with
  | Some (String _ _) => true
  | _ => false
  end.

Arguments truthy s : simpl nomatch.

(** [a || b] on optional strings. *)
Definition or_else (a b : option string) : option string :=
  if truthy a then a else b.

(** [interruptId === lastInterruptIdRef.current].  The left operand is a
    [string | undefined], the right one a [string | null]; strict equality
    never identifies [undefined] with [null]. *)
Definition strict_eq (interruptId last : option string) : bool :=
  match interruptId, last with
  | Some a, Some b => bool_decide (a = b)
  | _, _ => false
  end.

Record ActionRequest := {
  ar_name : option string;
  ar_args : Json;
}.

(** The fields the hook reads from an interrupt value. *)
Record Payload := {
  action_requests : option (list ActionRequest);
  name : option string;
}.

(** An interrupt as delivered by either channel: [{ id?, value?, ... }].
    When [value] is missing the interrupt object itself plays the role of the
    value, so its own top-level fields are kept in [i_self]. *)
Record Interrupt := {
  i_id : option string;
  i_value : option Payload;
  i_self : Payload;
}.

(** [interrupt?.value || interrupt] *)
Inductive PendingAction :=
| OfValue (p : Payload)
| OfInterrupt (i : Interrupt).

Definition interruptValue (i : Interrupt) : PendingAction :=
  match i_value i with
  | Some v => OfValue v
  | None => OfInterrupt i
  end.

Definition payload_of (pa : PendingAction) : Payload :=
  match pa with
  | OfValue p => p
  | OfInterrupt i => i_self i
  end.

(** [interruptValue?.action_requests?.[0]?.name || interruptValue?.name || "unknown"] *)
Definition nodeName_of (pa : PendingAction) : string :=
  let p := payload_of pa in
  let first :=
    match action_requests p with
    | Some (a :: _) => ar_name a
    | _ => None
    end in
  match or_else (or_else first (name p)) (Some "unknown") with
  | Some s => s
  | None => "unknown"
  end.

(** [InterruptState] of [types.ts]. *)
Record InterruptState := {
  runId : string;
  threadId : string;
  nodeName : string;
  pendingAction : PendingAction;
  state : Json;
  interruptId : option string;
}.

(** [HITLDecision] of [types.ts]. *)
Inductive HITLDecision := approve | reject | edit.

(** One entry of the [decisions] array of a resume command. *)
Inductive DecisionEntry :=
| TypeApprove
| TypeReject
| TypeEdit (edited_args : Json).

Record ResumeValue := { decisions : list DecisionEntry }.

(** What the detector reads from the [stream] object on one tick. *)
Record Stream := {
  s_interrupt : option Interrupt;
  s_runId : option string;
  s_values : option Json;
}.

(** The result of [client.threads.getState]. *)
Record Task := { t_interrupts : option (list Interrupt) }.

Record ThreadState := {
  ts_values : option Json;
  ts_interrupts : option (list Interrupt);
  ts_tasks : option (list Task);
}.

Inductive QueryOutcome :=
| Resolved (st : ThreadState)
| Rejected.

(** ** The hook's cells and the trace of its calls *)

Record Hook := {
  interruptState : option InterruptState;
  handledInterruptIds : gset string;
  lastInterruptId : option string;
  cancelled : list bool;
}.

(** What an observer sees of the cells at the instant of a call. *)
Record Seen := {
  seen_display : option InterruptState;
  seen_ledger : gset string;
  seen_last : option string;
}.

Inductive Event :=
| SetInterruptState (v : option InterruptState)
| Submit (rv : ResumeValue) (at_call : Seen).

(** The records published by a trace: the non-null arguments of its
    [setInterruptState] calls, in order. *)
Definition publishes (evs : list Event) : list InterruptState :=
  omap (fun e => match e with SetInterruptState v => v | _ => None end) evs.

(** ** A small monad: state, trace and JavaScript completions *)

Inductive Completion (A : Type) :=
| Normal (a : A)
| Thrown.
Arguments Normal {A} a.
Arguments Thrown {A}.

Record Out (A : Type) := mkOut {
  completion : Completion A;
  after : Hook;
  trace : list Event;
}.
Arguments mkOut {A} _ _ _.
Arguments completion {A} _.
Arguments after {A} _.
Arguments trace {A} _.

Definition Eff (A : Type) : Type := Hook -> Out A.

Definition ret {A} (a : A) : Eff A := fun h => mkOut (Normal a) h [].

Definition bind {A B} (m : Eff A) (k : A -> Eff B) : Eff B :=
  fun h =>
    match m h with
    | mkOut (Normal a) h1 t1 =>
        match k a h1 with
        | mkOut c h2 t2 => mkOut c h2 (t1 ++ t2)
        end
    | mkOut Thrown h1 t1 => mkOut Thrown h1 t1
    end.

(** [try { body } catch { handler }] *)
Definition try_catch {A} (body handler : Eff A) : Eff A :=
  fun h =>
    match body h with
    | mkOut (Normal a) h1 t1 => mkOut (Normal a) h1 t1
    | mkOut Thrown h1 t1 =>
        match handler h1 with
        | mkOut c h2 t2 => mkOut c h2 (t1 ++ t2)
        end
    end.

Notation "x <- m ;; k" := (bind m (fun x => k))
  (at level 100, m at level 60, right associativity, only parsing).
Notation "m ;;; k" := (bind m (fun _ => k))
  (at level 100, right associativity, only parsing).

Definition throw {A} : Eff A := fun h => mkOut Thrown h [].

Definition when (b : bool) (m : Eff unit) : Eff unit :=
  if b then m else ret tt.

(** *** Primitive operations on the cells *)

Definition setInterruptState (v : option InterruptState) : Eff unit :=
  fun h =>
    mkOut (Normal tt)
      {| interruptState := v;
         handledInterruptIds := handledInterruptIds h;
         lastInterruptId := lastInterruptId h;
         cancelled := cancelled h |}
      [SetInterruptState v].

Definition set_last (v : option string) : Eff unit :=
  fun h =>
    mkOut (Normal tt)
      {| interruptState := interruptState h;
         handledInterruptIds := handledInterruptIds h;
         lastInterruptId := v;
         cancelled := cancelled h |}
      [].

(** [Set.prototype.add], [delete] and [has] on the ledger. *)
Definition set_add (i : string) (s : gset string) : gset string := {[i]} ∪ s.
Definition set_delete (i : string) (s : gset string) : gset string := s ∖ {[i]}.
Definition set_has (i : string) (s : gset string) : bool := bool_decide (i ∈ s).
Arguments set_add : simpl never.
Arguments set_delete : simpl never.
Arguments set_has : simpl never.

Definition with_ledger (f : gset string -> gset string) : Eff unit :=
  fun h =>
    mkOut (Normal tt)
      {| interruptState := interruptState h;
         handledInterruptIds := f (handledInterruptIds h);
         lastInterruptId := lastInterruptId h;
         cancelled := cancelled h |}
      [].

Definition ledger_add (i : string) : Eff unit := with_ledger (set_add i).
Definition ledger_delete (i : string) : Eff unit := with_ledger (set_delete i).
Definition ledger_clear : Eff unit := with_ledger (fun _ => ∅).

(** [interruptId && handledInterruptIdsRef.current.has(interruptId)] *)
Definition handled (interruptId : option string) (h : Hook) : bool :=
  match interruptId with
  | Some i => truthy interruptId && set_has i (handledInterruptIds h)
  | None => false
  end.

(** Reading the [cancelled] variable of the effect run number [k]. *)
Definition is_cancelled (k : nat) (h : Hook) : bool :=
  default false (cancelled h !! k).

Definition seen (h : Hook) : Seen :=
  {| seen_display := interruptState h;
     seen_ledger := handledInterruptIds h;
     seen_last := lastInterruptId h |}.

(** [stream.submit(undefined, { command: { resume } })]; [throws] says
    whether the call raises synchronously. *)
Definition submit (throws : bool) (rv : ResumeValue) : Eff unit :=
  fun h =>
    mkOut (if throws then Thrown else Normal tt) h [Submit rv (seen h)].

Definition alloc_cancelled : Eff nat :=
  fun h =>
    mkOut (Normal (length (cancelled h)))
      {| interruptState := interruptState h;
         handledInterruptIds := handledInterruptIds h;
         lastInterruptId := lastInterruptId h;
         cancelled := cancelled h ++ [false] |}
      [].

Definition set_cancelled (k : nat) : Eff unit :=
  fun h =>
    mkOut (Normal tt)
      {| interruptState := interruptState h;
         handledInterruptIds := handledInterruptIds h;
         lastInterruptId := lastInterruptId h;
         cancelled := <[k := true]> (cancelled h) |}
      [].

(** ** The detector: [checkInterrupts] *)

(** What a tick keeps from the effect run that scheduled it: the
    conversation, the credential and its [cancelled] variable. *)
Record Closure := {
  c_threadId : string;
  c_accessToken : string;
  c_cancelled : nat;
}.

Definition is_null (v : option string) : bool :=
  match v with None => true | Some _ => false end.

(** [if (!cancelled && lastInterruptIdRef.current !== null) {
       setInterruptState(null); lastInterruptIdRef.current = null; }] *)
Definition clear_if_marked (cl : Closure) : Eff unit :=
  fun h =>
    if negb (is_cancelled (c_cancelled cl) h)
       && negb (is_null (lastInterruptId h))
    then (setInterruptState None ;;; set_last None) h
    else ret tt h.

(** [if (!cancelled) { lastInterruptIdRef.current = interruptId || null;
       setInterruptState({...}); }] *)
Definition publish (cl : Closure) (r : InterruptState) : Eff unit :=
  fun h =>
    if negb (is_cancelled (c_cancelled cl) h)
    then (set_last (or_else (interruptId r) None) ;;;
          setInterruptState (Some r)) h
    else ret tt h.

(** The steps shared by both channels once an interrupt has been picked:
    skip a handled one, keep an unchanged one, publish a new one. *)
Definition consider (cl : Closure) (interrupt : Interrupt) (r : InterruptState)
  : Eff unit :=
  fun h =>
    if handled (i_id interrupt) h then clear_if_marked cl h
    else if strict_eq (i_id interrupt) (lastInterruptId h) then ret tt h
    else publish cl r h.

Definition json_or (a : option Json) (b : Json) : Json :=
  match a with
  | Some j => if json_truthy j then j else b
  | None => b
  end.

(** The record built on the live channel (lines 349-356). *)
Definition live_record (cl : Closure) (stream : Stream) (interrupt : Interrupt)
  : InterruptState :=
  {| runId := match or_else (s_runId stream) (Some "unknown") with
              | Some s => s
              | None => "unknown"
              end;
     threadId := c_threadId cl;
     nodeName := nodeName_of (interruptValue interrupt);
     pendingAction := interruptValue interrupt;
     state := json_or (s_values stream) (JObj []);
     interruptId := i_id interrupt |}.

(** The record built on the fallback channel (lines 395-402). *)
Definition fallback_record (cl : Closure) (values : Json) (interrupt : Interrupt)
  : InterruptState :=
  {| runId := "unknown";
     threadId := c_threadId cl;
     nodeName := nodeName_of (interruptValue interrupt);
     pendingAction := interruptValue interrupt;
     state := values;
     interruptId := i_id interrupt |}.

(** [[...interrupts, ...taskInterrupts]] *)
Definition allInterrupts (st : ThreadState) : list Interrupt :=
  default [] (ts_interrupts st) ++
  default []
    (flat_map (fun task => default [] (t_interrupts task)) <$> ts_tasks st).

(** [state.values] when it is truthy. *)
Definition truthy_values (st : ThreadState) : option Json :=
  match ts_values st with
  | Some j => if json_truthy j then Some j else None
  | None => None
  end.

(** Lines 370-410, run when [getState] has resolved with [st]. *)
Definition fallback_branch (cl : Closure) (st : ThreadState) : Eff unit :=
  fun h =>
    match allInterrupts st, negb (is_cancelled (c_cancelled cl) h),
          truthy_values st with
    | interrupt :: _, true, Some values =>
        consider cl interrupt (fallback_record cl values interrupt) h
    | _, _, _ => clear_if_marked cl h
    end.

Inductive TickStatus := Finished | Awaiting.

(** The part of a tick that runs before [await client.threads.getState]. *)
Definition checkInterrupts_sync (cl : Closure) (stream : Stream)
  : Eff TickStatus :=
  try_catch
    (match s_interrupt stream with
     | Some interrupt =>
         consider cl interrupt (live_record cl stream interrupt) ;;;
         ret Finished
     | None => ret Awaiting
     end)
    (clear_if_marked cl ;;; ret Finished).

(** The part of a tick that runs once the awaited query has settled. *)
Definition checkInterrupts_resume (cl : Closure) (q : QueryOutcome)
  : Eff unit :=
  try_catch
    (match q with
     | Resolved st => fallback_branch cl st
     | Rejected => throw
     end)
    (clear_if_marked cl).

(** A whole tick whose query settles before anything else happens. *)
Definition checkInterrupts (cl : Closure) (stream : Stream) (q : QueryOutcome)
  : Eff unit :=
  s <- checkInterrupts_sync cl stream ;;
  match s with
  | Finished => ret tt
  | Awaiting => checkInterrupts_resume cl q
  end.

(** ** The resume coordinator: [resumeRun] *)

(** [interruptState.pendingAction?.action_requests || []] *)
Definition actionRequests_of (r : InterruptState) : list ActionRequest :=
  default [] (action_requests (payload_of (pendingAction r))).

(** Lines 453-501: the [try] block and its [catch]. *)
Definition resume_attempt (r : InterruptState) (decision : HITLDecision)
    (throws : bool) : Eff unit :=
  try_catch
    (let actionRequests := actionRequests_of r in
     match decision with
     | approve =>
         submit throws
           {| decisions := map (fun _ => TypeApprove) actionRequests |}
     | reject =>
         submit throws
           {| decisions := map (fun _ => TypeReject) actionRequests |}
     | edit => ret tt
     end)
    (match interruptId r with
     | Some i =>
         when (truthy (interruptId r))
           (ledger_delete i ;;;
            setInterruptState (Some r) ;;;
            when (truthy (interruptId r)) (set_last (interruptId r)))
     | None => ret tt
     end).

(** [resumeRun(decision, editedState)], lines 433-504.  The callback is
    created by [useCallback] with the dependencies
    [[interruptState, accessToken, stream]]: in its body [interruptState]
    and [accessToken] are the values of the render that created it,
    [rendered] and [accessToken] here, while the two refs are read and
    written in the cells. *)
Definition resumeRun_closure (rendered : option InterruptState)
    (accessToken : option string) (throws : bool)
    (decision : HITLDecision) (editedState : option Json) : Eff unit :=
  match rendered with
  | None => ret tt
  | Some r =>
      if negb (truthy accessToken) then ret tt
      else
        (match interruptId r with
         | Some i => when (truthy (interruptId r)) (ledger_add i)
         | None => ret tt
         end) ;;;
        setInterruptState None ;;;
        set_last None ;;;
        resume_attempt r decision throws
  end.

(** The callback of a render that has seen the record the cell holds. *)
Definition resumeRun (accessToken : option string) (throws : bool)
    (decision : HITLDecision) (editedState : option Json) : Eff unit :=
  fun h =>
    resumeRun_closure (interruptState h) accessToken throws decision
      editedState h.

(** [onError], lines 87-123: the error of a run that fails after
    [stream.submit] has returned is delivered here.  Both branches only
    log; no setter is called and no ref is touched. *)
Definition onError : Eff unit := ret tt.

(** ** The effects and the component around them *)

(** The values the two effects depend on. *)
Record Props := {
  p_threadId : option string;
  p_enableHITL : bool;
  p_accessToken : option string;
}.

(** Lines 141-145: the effect on [[threadId]]. *)
Definition thread_effect : Eff unit :=
  ledger_clear ;;;
  setInterruptState None ;;;
  set_last None.

(** Line 310: [!enableHITL || !threadId || !accessToken]. *)
Definition detector_off (p : Props) : bool :=
  negb (p_enableHITL p) || negb (truthy (p_threadId p))
  || negb (truthy (p_accessToken p)).

(** Lines 309-317 of the effect on [[enableHITL, threadId, accessToken]]:
    either the detector stays off and the display is cleared, or a fresh
    [cancelled] variable is created for the ticks of this run. *)
Definition detector_effect (p : Props) : Eff (option Closure) :=
  match p_threadId p, p_accessToken p with
  | Some t, Some a =>
      if detector_off p then
        setInterruptState None ;;; set_last None ;;; ret None
      else
        k <- alloc_cancelled ;;
        ret (Some {| c_threadId := t; c_accessToken := a; c_cancelled := k |})
  | _, _ => setInterruptState None ;;; set_last None ;;; ret None
  end.

(** Lines 424-427: the cleanup of that effect. *)
Definition detector_cleanup (cl : Closure) : Eff unit :=
  set_cancelled (c_cancelled cl).

(** The component between two operations.  [rendered] is the value of
    [interruptState] in the latest render: what the [resumeRun] of that
    render closes over, and what the hook returns when HITL is enabled
    (line 547).  It lags behind the cell until the next render. *)
Record Sys := {
  hook : Hook;
  props : option Props;
  timer : option Closure;
  inflight : list Closure;
  rendered : option InterruptState;
}.

Definition initial : Sys :=
  {| hook := {| interruptState := None;
                handledInterruptIds := ∅;
                lastInterruptId := None;
                cancelled := [] |};
     props := None;
     timer := None;
     inflight := [];
     rendered := None |}.

(** What can happen to the component: a render with its commit, a firing
    of the interval, the return of the query of the [n]-th tick in flight, a
    call of the [resumeRun] of the latest render (with the edited state, and
    whether [stream.submit] throws), and an error of the stream reported to
    [onError]. *)
Inductive Op :=
| Render (p : Props) (stream : Stream)
| Tick (stream : Stream)
| QueryReturns (n : nat) (q : QueryOutcome)
| Resolve (decision : HITLDecision) (editedState : option Json) (throws : bool)
| StreamError.

Definition thread_changed (old : option Props) (p : Props) : bool :=
  match old with
  | None => true
  | Some q => negb (bool_decide (p_threadId q = p_threadId p))
  end.

Definition detector_deps_changed (old : option Props) (p : Props) : bool :=
  match old with
  | None => true
  | Some q =>
      negb (bool_decide (p_enableHITL q = p_enableHITL p)
            && bool_decide (p_threadId q = p_threadId p)
            && bool_decide (p_accessToken q = p_accessToken p))
  end.

(** Starting a tick: run it up to its first suspension. *)
Definition start_tick (cl : Closure) (stream : Stream) (s : Sys)
  : Sys * list Event :=
  let o := checkInterrupts_sync cl stream (hook s) in
  ({| hook := after o;
      props := props s;
      timer := timer s;
      inflight :=
        match completion o with
        | Normal Awaiting => inflight s ++ [cl]
        | _ => inflight s
        end;
      rendered := rendered s |},
   trace o).

(** A render and its commit.  The render sees the value the cell holds when
    it starts; then come the cleanups of the effects whose dependencies
    changed and their bodies in source order (the reset of line 141 before
    the detector of line 309), the latter ending with the immediate
    [checkInterrupts()] and the registration of the interval.  What the
    effects pass to [setInterruptState] is seen by the next render only. *)
Definition render (p : Props) (stream : Stream) (s : Sys) : Sys * list Event :=
  let o1 :=
    (when (detector_deps_changed (props s) p)
       (match timer s with
        | Some cl => detector_cleanup cl
        | None => ret tt
        end) ;;;
     when (thread_changed (props s) p) thread_effect) (hook s) in
  if detector_deps_changed (props s) p then
    let o2 := detector_effect p (after o1) in
    match completion o2 with
    | Normal (Some cl) =>
        let '(s3, evs) :=
          start_tick cl stream
            {| hook := after o2; props := Some p;
               timer := Some cl; inflight := inflight s;
               rendered := interruptState (hook s) |} in
        (s3, trace o1 ++ trace o2 ++ evs)
    | _ =>
        ({| hook := after o2; props := Some p;
            timer := None; inflight := inflight s;
            rendered := interruptState (hook s) |},
         trace o1 ++ trace o2)
    end
  else
    ({| hook := after o1; props := Some p;
        timer := timer s; inflight := inflight s;
        rendered := interruptState (hook s) |},
     trace o1).

Definition step (op : Op) (s : Sys) : Sys * list Event :=
  match op with
  | Render p stream => render p stream s
  | Tick stream =>
      match timer s with
      | Some cl => start_tick cl stream s
      | None => (s, [])
      end
  | QueryReturns n q =>
      match inflight s !! n with
      | Some cl =>
          let o := checkInterrupts_resume cl q (hook s) in
          ({| hook := after o; props := props s; timer := timer s;
              inflight := delete n (inflight s); rendered := rendered s |},
           trace o)
      | None => (s, [])
      end
  | Resolve decision editedState throws =>
      let o :=
        resumeRun_closure (rendered s) (props s ≫= p_accessToken) throws
          decision editedState (hook s) in
      ({| hook := after o; props := props s; timer := timer s;
          inflight := inflight s; rendered := rendered s |},
       trace o)
  | StreamError =>
      let o := onError (hook s) in
      ({| hook := after o; props := props s; timer := timer s;
          inflight := inflight s; rendered := rendered s |},
       trace o)
  end.

Fixpoint run (ops : list Op) (s : Sys) : Sys * list Event :=
  match ops with
  | [] => (s, [])
  | op :: ops' =>
      let '(s1, e1) := step op s in
      let '(s2, e2) := run ops' s1 in
      (s2, e1 ++ e2)
  end.

(** ** Sample data (the payload shown in HITL_IMPLEMENTATION.md) *)

Definition sample_request : ActionRequest :=
  {| ar_name := Some "analyze_image";
     ar_args := JObj [("query", JStr "q")] |}.

Definition sample_payload : Payload :=
  {| action_requests := Some [sample_request]; name := None |}.

Definition no_payload : Payload :=
  {| action_requests := None; name := None |}.

(** [{ id: "i1", value: { action_requests: [...] } }] *)
Definition interrupt_i1 : Interrupt :=
  {| i_id := Some "i1"; i_value := Some sample_payload; i_self := no_payload |}.

(** The same pause reported without an [id]. *)
Definition interrupt_noid : Interrupt :=
  {| i_id := None; i_value := Some sample_payload; i_self := no_payload |}.

Definition stream_of (i : option Interrupt) : Stream :=
  {| s_interrupt := i; s_runId := Some "run-1"; s_values := Some (JObj []) |}.

Definition props_A : Props :=
  {| p_threadId := Some "A"; p_enableHITL := true; p_accessToken := Some "tok" |}.

Definition props_B : Props :=
  {| p_threadId := Some "B"; p_enableHITL := true; p_accessToken := Some "tok" |}.

Definition closure_A : Closure :=
  {| c_threadId := "A"; c_accessToken := "tok"; c_cancelled := 0 |}.

(** * Notions used in the statements *)

(** ** Reading the trace and the cells *)

(** The resume values passed to [stream.submit] by a trace, in order. *)
Definition submitted (evs : list Event) : list ResumeValue :=
  omap (fun e => match e with Submit rv _ => Some rv | _ => None end) evs.

(** The cells after [setInterruptState(null)] and a reset of the marker. *)
Definition cleared (h : Hook) : Hook :=
  {| interruptState := None;
     handledInterruptIds := handledInterruptIds h;
     lastInterruptId := None;
     cancelled := cancelled h |}.

(** The cells after the record [r] has been published. *)
Definition showing (r : InterruptState) (h : Hook) : Hook :=
  {| interruptState := Some r;
     handledInterruptIds := handledInterruptIds h;
     lastInterruptId := or_else (interruptId r) None;
     cancelled := cancelled h |}.

(** The effect run that created [cl] has not been cleaned up. *)
Definition live (cl : Closure) (h : Hook) : Prop :=
  cancelled h !! c_cancelled cl = Some false.

(** The cleanup of the effect run that created [cl] has set [cancelled]. *)
Definition torn_down (cl : Closure) (h : Hook) : Prop :=
  cancelled h !! c_cancelled cl = Some true.

(** The interrupt a whole tick settles on, with the record it would show:
    the live one if there is one, otherwise the first of the queried state
    provided that state has values. *)
Definition candidate (cl : Closure) (stream : Stream) (q : QueryOutcome)
  : option (Interrupt * InterruptState) :=
  match s_interrupt stream with
  | Some i => Some (i, live_record cl stream i)
  | None =>
      match q with
      | Resolved st =>
          match allInterrupts st, truthy_values st with
          | i :: _, Some v => Some (i, fallback_record cl v i)
          | _, _ => None
          end
      | Rejected => None
      end
  end.

(** The sync invariant between the displayed record and the marker. *)
Definition in_sync (h : Hook) : Prop :=
  lastInterruptId h =
    match interruptState h with
    | Some r => or_else (interruptId r) None
    | None => None
    end.

(** A displayed record is never one the ledger already holds. *)
Definition unhandled_display (h : Hook) : Prop :=
  forall r i, interruptState h = Some r -> interruptId r = Some i ->
    truthy (Some i) = true -> i ∉ handledInterruptIds h.

(** *** The three things a tick can do to the cells *)

Definition fresh_for (r : InterruptState) (h : Hook) : Prop :=
  (forall i, interruptId r = Some i -> truthy (Some i) = true ->
             i ∉ handledInterruptIds h) /\
  strict_eq (interruptId r) (lastInterruptId h) = false.

Inductive tick_result (h : Hook) : Hook -> list Event -> Prop :=
| tick_idle : tick_result h h []
| tick_clears :
    lastInterruptId h <> None ->
    tick_result h (cleared h) [SetInterruptState None]
| tick_publishes r :
    fresh_for r h ->
    tick_result h (showing r h) [SetInterruptState (Some r)].

(** *** The cells after a resolve *)

(** The ledger once the id of the resolved record has been added. *)
Definition add_handled (oid : option string) (s : gset string) : gset string :=
  match oid with
  | Some i => if truthy oid then set_add i s else s
  | None => s
  end.

(** The cells right after lines 441-451. *)
Definition marked (r : InterruptState) (h : Hook) : Hook :=
  {| interruptState := None;
     handledInterruptIds := add_handled (interruptId r) (handledInterruptIds h);
     lastInterruptId := None;
     cancelled := cancelled h |}.

(** The cells after the [catch] block has undone the marking of [i]. *)
Definition rolled_back (r : InterruptState) (i : string) (h : Hook) : Hook :=
  {| interruptState := Some r;
     handledInterruptIds := set_delete i (set_add i (handledInterruptIds h));
     lastInterruptId := Some i;
     cancelled := cancelled h |}.

(** [{ decisions: actionRequests.map(() => e) }] *)
Definition uniform (e : DecisionEntry) (r : InterruptState) : ResumeValue :=
  {| decisions := map (fun _ => e) (actionRequests_of r) |}.

(** ** The component's steps as sequences of elementary moves *)

(** The cells with other [cancelled] variables. *)
Definition with_cells (c : list bool) (h : Hook) : Hook :=
  {| interruptState := interruptState h;
     handledInterruptIds := handledInterruptIds h;
     lastInterruptId := lastInterruptId h;
     cancelled := c |}.

(** The cells after the reset of lines 141-145. *)
Definition reset (h : Hook) : Hook :=
  {| interruptState := None;
     handledInterruptIds := ∅;
     lastInterruptId := None;
     cancelled := cancelled h |}.

(** Everything an operation can do to the cells, with the calls it makes.
    The flag says whether the conversation may change, and [seen_record] is
    the record the latest render saw, the only one a resolve can act on. *)
Inductive hook_move (thread_may_change : bool)
    (seen_record : option InterruptState) (h : Hook)
  : Hook -> list Event -> Prop :=
| move_tick h' evs :
    tick_result h h' evs -> hook_move thread_may_change seen_record h h' evs
| move_cells c :
    hook_move thread_may_change seen_record h (with_cells c h) []
| move_reset :
    thread_may_change = true ->
    hook_move thread_may_change seen_record h (reset h)
      [SetInterruptState None]
| move_off :
    hook_move thread_may_change seen_record h (cleared h)
      [SetInterruptState None]
| move_resolved r sub :
    seen_record = Some r ->
    sub = [] \/ (exists rv, sub = [Submit rv (seen (marked r h))]) ->
    hook_move thread_may_change seen_record h (marked r h)
      (SetInterruptState None :: sub)
| move_failed r i rv :
    seen_record = Some r -> interruptId r = Some i ->
    truthy (Some i) = true ->
    hook_move thread_may_change seen_record h (rolled_back r i h)
      [SetInterruptState None; Submit rv (seen (marked r h));
       SetInterruptState (Some r)].

(** Sequences of moves, with the concatenation of their calls. *)
Inductive moves (b : bool) (c : option InterruptState)
  : Hook -> Hook -> list Event -> Prop :=
| moves_nil h : moves b c h h []
| moves_cons h1 h2 h3 e1 e2 :
    hook_move b c h1 h2 e1 -> moves b c h2 h3 e2 -> moves b c h1 h3 (e1 ++ e2).

(** Only a commit with a new [threadId] changes the conversation. *)
Definition may_change_thread (op : Op) (s : Sys) : bool :=
  match op with
  | Render p _ => thread_changed (props s) p
  | _ => false
  end.

(** The cells before the effect bodies of a commit run. *)
Definition after_cleanup (p : Props) (s : Sys) : Hook :=
  if detector_deps_changed (props s) p then
    match timer s with
    | Some cl => with_cells (<[c_cancelled cl := true]> (cancelled (hook s))) (hook s)
    | None => hook s
    end
  else hook s.

(** The cells once the reset of line 141 has had its turn. *)
Definition after_reset (p : Props) (s : Sys) : Hook :=
  if thread_changed (props s) p then reset (after_cleanup p s)
  else after_cleanup p s.

(** ** Scenarios *)

(** Mount on conversation A while the live probe reports [i1]: the
    immediate tick publishes its record, and the render that follows this
    change of state shows it. *)
Definition displayed_i1 : list Op :=
  [Render props_A (stream_of (Some interrupt_i1));
   Render props_A (stream_of (Some interrupt_i1))].

(** The same with the interrupt without id. *)
Definition displayed_noid : list Op :=
  [Render props_A (stream_of (Some interrupt_noid));
   Render props_A (stream_of (Some interrupt_noid))].

(** ** Ticks and conversations *)

(** The interrupt a whole tick looks at, whether or not the queried state
    has values. *)
Definition reported (stream : Stream) (q : QueryOutcome) : option Interrupt :=
  match s_interrupt stream with
  | Some i => Some i
  | None =>
      match q with
      | Resolved st => head (allInterrupts st)
      | Rejected => None
      end
  end.




(** [i1] displayed, then approved without failure. *)
Definition resolved_i1 : list Op :=
  displayed_i1 ++ [Resolve approve None false].

(** The queried state with its interrupt lists emptied. *)
Definition without_interrupts (st : ThreadState) : ThreadState :=
  {| ts_values := ts_values st; ts_interrupts := None; ts_tasks := None |}.

(** A queried state that lists [i1] but has no [values]. *)
Definition state_without_values : ThreadState :=
  {| ts_values := None; ts_interrupts := Some [interrupt_i1];
     ts_tasks := None |}.

(** ** The [cancelled] cells and the ticks in flight *)

(** The interval's closure is live, and a tick in flight either belongs to
    the running detector or has been torn down. *)
Definition cells_ok (s : Sys) : Prop :=
  (forall cl, timer s = Some cl -> live cl (hook s)) /\
  (forall cl, cl ∈ inflight s -> torn_down cl (hook s) \/ timer s = Some cl).

(** The cells once the cleanup of a commit has run. *)
Definition cells_after_cleanup (p : Props) (s : Sys) : list bool :=
  if detector_deps_changed (props s) p then
    match timer s with
    | Some cl => <[c_cancelled cl := true]> (cancelled (hook s))
    | None => cancelled (hook s)
    end
  else cancelled (hook s).

(** ** A commit on a new conversation *)

(** Mount on conversation A with a silent live probe: the immediate tick
    is left waiting for its query. *)
Definition awaiting_A : list Op := [Render props_A (stream_of None)].

(** A queried state that lists [i1] and has values. *)
Definition state_i1 : ThreadState :=
  {| ts_values := Some (JObj []); ts_interrupts := Some [interrupt_i1];
     ts_tasks := None |}.




(** * More of the hook: notions for further statements *)

(** ** Where a displayed record comes from *)

(** The record [r] was built by a tick of the effect run [cl], on one of
    the two channels. *)
Definition built_by (cl : Closure) (r : InterruptState) : Prop :=
  (exists stream itr, r = live_record cl stream itr) \/
  (exists values itr, r = fallback_record cl values itr).

(** The conversation the component is mounted on. *)
Definition current_thread (s : Sys) : option string :=
  props s ≫= p_threadId.

(** The interval, if any, belongs to the current conversation, and the
    record in the cell and the one the latest render saw were normalised by
    the detector. *)
Definition display_bound (s : Sys) : Prop :=
  (forall cl, timer s = Some cl -> current_thread s = Some (c_threadId cl)) /\
  (forall r, interruptState (hook s) = Some r \/ rendered s = Some r ->
     nodeName r = nodeName_of (pendingAction r)).

(** A queried state that reports nothing. *)
Definition empty_state : ThreadState :=
  {| ts_values := None; ts_interrupts := None; ts_tasks := None |}.

(** ** The approval panel ([HITLPanel.tsx]) *)

(** [interruptState.pendingAction?.action_requests?.[0]] *)
Definition panel_actionRequest (r : InterruptState) : option ActionRequest :=
  match action_requests (payload_of (pendingAction r)) with
  | Some (a :: _) => Some a
  | _ => None
  end.

(** [actionRequest?.name || interruptState.nodeName] *)
Definition panel_toolName (r : InterruptState) : string :=
  match or_else (panel_actionRequest r ≫= ar_name) (Some (nodeName r)) with
  | Some s => s
  | None => nodeName r
  end.

(** Mount on conversation A with [i1] displayed, then the credential goes
    away. *)
Definition props_A_signed_out : Props :=
  {| p_threadId := Some "A"; p_enableHITL := true; p_accessToken := None |}.

(** * Messages: [filteredMessages] of the hook and their use in
    [ChatInterface.tsx] *)

(** ** Data *)

(** [{ name, arguments }] of an OpenAI-style tool call. *)
Record FunctionCall := {
  fn_name : option string;
  fn_arguments : option Json;
}.

(** The fields the interface reads from the loosely typed objects of a
    message: the entries of [tool_calls] and the objects of a content
    array. *)
Record Block := {
  b_type : option string;
  b_text : option string;
  b_id : option string;
  b_name : option string;
  b_args : option Json;
  b_input : option Json;
  b_function : option FunctionCall;
}.

Inductive ContentPart :=
| PartString (s : string)
| PartObject (b : Block).

(** [message.content]: a string, an array, or anything else. *)
Inductive Content :=
| ContentString (s : string)
| ContentArray (parts : list ContentPart)
| ContentOther.

(** A message of the stream.  [m_tool_calls] and [m_kwargs_tool_calls] are
    [None] unless the property is a (truthy) array. *)
Record Message := {
  m_id : option string;
  m_type : option string;
  m_content : Content;
  m_tool_calls : option (list Block);
  m_kwargs_tool_calls : option (list Block);
  m_tool_call_id : option string;
}.

(** ** [filteredMessages] (useChat.ts, lines 506-539) *)

Definition supportedTypes : list string :=
  ["human"; "ai"; "system"; "developer"; "tool"].

(** [supportedTypes.includes(t)] *)
Definition includes_type (t : string) : bool :=
  bool_decide (t ∈ supportedTypes).

(** [message.type && supportedTypes.includes(message.type)] *)
Definition supported (m : Message) : bool :=
  match m_type m with
  | Some t => truthy (Some t) && includes_type t
  | None => false
  end.

(** [!message.type || !supportedTypes.includes(message.type)] *)
Definition unsupported (m : Message) : bool :=
  match m_type m with
  | Some t => negb (truthy (Some t)) || negb (includes_type t)
  | None => true
  end.

(** [stream.messages || []] *)
Definition rawMessages (stream_messages : option (list Message)) : list Message :=
  default [] stream_messages.

Definition unsupportedMessages (stream_messages : option (list Message))
  : list Message :=
  List.filter unsupported (rawMessages stream_messages).

Definition filteredMessages (stream_messages : option (list Message))
  : list Message :=
  List.filter supported (rawMessages stream_messages).

(** ** [extractStringFromMessageContent] (utils.ts) *)

(** [c.type === "text" || typeof c === "string"] *)
Definition is_text_part (c : ContentPart) : bool :=
  match c with
  | PartString _ => true
  | PartObject b => bool_decide (b_type b = Some "text")
  end.

(** [typeof c === "string" ? c : c.text || ""] *)
Definition part_text (c : ContentPart) : string :=
  match c with
  | PartString s => s
  | PartObject b =>
      match or_else (b_text b) (Some "") with
      | Some s => s
      | None => ""
      end
  end.

(** [parts.join("")] *)
Definition join_empty (l : list string) : string :=
  fold_right String.append "" l.

Definition extractStringFromContent (c : Content) : string :=
  match c with
  | ContentString s => s
  | ContentArray parts => join_empty (map part_text (List.filter is_text_part parts))
  | ContentOther => ""
  end.

Definition extractStringFromMessageContent (m : Message) : string :=
  extractStringFromContent (m_content m).

(** ** [processedMessages] (ChatInterface.tsx) *)

Inductive ToolStatus := StatusPending | StatusCompleted | StatusError.

Record ToolCall := {
  tc_id : string;
  tc_name : string;
  tc_args : Json;
  tc_result : option string;
  tc_status : ToolStatus;
}.

(** The value of a [messageMap] entry. *)
Record Entry := {
  e_message : Message;
  e_toolCalls : list ToolCall;
}.

(** [messages.filter(...)] at the head of [processedMessages]. *)
Definition validMessages (messages : list Message) : list Message :=
  List.filter supported messages.

(** The three places a tool call can come from, tried in this order. *)
Definition toolCallsInMessage (m : Message) : list Block :=
  match m_kwargs_tool_calls m with
  | Some l => l
  | None =>
      match m_tool_calls m with
      | Some l =>
          List.filter (fun tc => negb (bool_decide (b_name tc = Some ""))) l
      | None =>
          match m_content m with
          | ContentArray parts =>
              omap (fun c =>
                      match c with
                      | PartObject b =>
                          if bool_decide (b_type b = Some "tool_use")
                          then Some b else None
                      | PartString _ => None
                      end) parts
          | _ => []
          end
      end
  end.

(** [a || b] on optional JSON values. *)
Definition json_or_else (a b : option Json) : option Json :=
  match a with
  | Some j => if json_truthy j then Some j else b
  | None => b
  end.

(** [toolCall.function?.name || toolCall.name || toolCall.type || "unknown"] *)
Definition toolCall_name (b : Block) : string :=
  match or_else (or_else (or_else (b_function b ≫= fn_name) (b_name b))
                   (b_type b)) (Some "unknown") with
  | Some s => s
  | None => "unknown"
  end.

(** [toolCall.function?.arguments || toolCall.args || toolCall.input || {}] *)
Definition toolCall_args (b : Block) : Json :=
  match json_or_else
          (json_or_else (json_or_else (b_function b ≫= fn_arguments) (b_args b))
             (b_input b)) (Some (JObj [])) with
  | Some j => j
  | None => JObj []
  end.

(** [toolCallsInMessage.map(...)]: [rand k] is the string
    [`tool-${Math.random()}`] of the [k]-th call of [Math.random], made only
    for a tool call without a truthy id. *)
Fixpoint toolCallsWithStatus (rand : nat -> string) (k : nat) (l : list Block)
  : list ToolCall * nat :=
  match l with
  | [] => ([], k)
  | b :: l' =>
      let '(id, k1) :=
        if truthy (b_id b)
        then (match b_id b with Some i => i | None => "" end, k)
        else (rand k, S k) in
      let '(rest, k2) := toolCallsWithStatus rand k1 l' in
      ({| tc_id := id; tc_name := toolCall_name b; tc_args := toolCall_args b;
          tc_result := None; tc_status := StatusPending |} :: rest, k2)
  end.

(** [Map.prototype.set] on a map kept in insertion order: an existing key
    keeps its place and gets the new value. *)
Fixpoint map_set (key : option string) (v : Entry)
    (m : list (option string * Entry)) : list (option string * Entry) :=
  match m with
  | [] => [(key, v)]
  | (key', v') :: m' =>
      if bool_decide (key = key') then (key, v) :: m'
      else (key', v') :: map_set key v m'
  end.

(** [findIndex(tc => tc.id === toolCallId)] followed by the replacement of
    the tool call found; [None] when the index is -1. *)
Fixpoint complete_toolCall (toolCallId result : string) (tcs : list ToolCall)
  : option (list ToolCall) :=
  match tcs with
  | [] => None
  | tc :: rest =>
      if bool_decide (tc_id tc = toolCallId) then
        Some ({| tc_id := tc_id tc; tc_name := tc_name tc;
                 tc_args := tc_args tc; tc_result := Some result;
                 tc_status := StatusCompleted |} :: rest)
      else cons tc <$> complete_toolCall toolCallId result rest
  end.

(** The [for ... of messageMap.entries()] loop with its [continue] and
    [break]. *)
Fixpoint complete_first (toolCallId result : string)
    (m : list (option string * Entry)) : list (option string * Entry) :=
  match m with
  | [] => []
  | (key, data) :: m' =>
      match complete_toolCall toolCallId result (e_toolCalls data) with
      | Some tcs =>
          (key, {| e_message := e_message data; e_toolCalls := tcs |}) :: m'
      | None => (key, data) :: complete_first toolCallId result m'
      end
  end.

(** One turn of [validMessages.forEach]. *)
Definition process_message (rand : nat -> string) (message : Message)
    (acc : list (option string * Entry) * nat)
  : list (option string * Entry) * nat :=
  let '(messageMap, k) := acc in
  if bool_decide (m_type message = Some "ai") then
    let '(tcs, k') := toolCallsWithStatus rand k (toolCallsInMessage message) in
    (map_set (m_id message) {| e_message := message; e_toolCalls := tcs |}
       messageMap, k')
  else if bool_decide (m_type message = Some "tool") then
    match m_tool_call_id message with
    | Some toolCallId =>
        if truthy (Some toolCallId) then
          (complete_first toolCallId (extractStringFromMessageContent message)
             messageMap, k)
        else (messageMap, k)
    | None => (messageMap, k)
    end
  else if bool_decide (m_type message = Some "human") then
    (map_set (m_id message) {| e_message := message; e_toolCalls := [] |}
       messageMap, k)
  else (messageMap, k).

Definition build_messageMap (rand : nat -> string) (messages : list Message)
  : list (option string * Entry) :=
  fst (fold_left (fun acc message => process_message rand message acc)
         (validMessages messages) ([], 0)).

Record Processed := {
  pr_message : Message;
  pr_toolCalls : list ToolCall;
  pr_showAvatar : bool;
}.

(** [processedArray.map((data, index) => ...)]; [prev] is
    [prevMessage?.type]. *)
Fixpoint with_avatars (prev : option string) (l : list Entry) : list Processed :=
  match l with
  | [] => []
  | data :: l' =>
      {| pr_message := e_message data;
         pr_toolCalls := e_toolCalls data;
         pr_showAvatar := negb (bool_decide (m_type (e_message data) = prev)) |}
      :: with_avatars (m_type (e_message data)) l'
  end.

Definition processedMessages (rand : nat -> string) (messages : list Message)
  : list Processed :=
  with_avatars None (map snd (build_messageMap rand messages)).

(** [shouldShowInterrupt] for every rendered message:
    [interruptState && isLastMessage && data.message.type === "ai"]. *)
Definition shouldShowInterrupt (interruptState : option InterruptState)
    (processed : list Processed) : list bool :=
  imap (fun index data =>
          bool_decide (is_Some interruptState)
          && bool_decide (Z.of_nat index = Z.of_nat (length processed) - 1)%Z
          && bool_decide (m_type (pr_message data) = Some "ai"))
       processed.

(** ** Notions for the statements about [processedMessages] *)

(** The messages that get an entry: AI and human ones. *)
Definition is_shown (m : Message) : bool :=
  bool_decide (m_type m = Some "ai") || bool_decide (m_type m = Some "human").

(** The entries of the map are keyed by the id of their message, which is an
    AI or human message, and no key occurs twice. *)
Definition map_ok (m : list (option string * Entry)) : Prop :=
  NoDup (map fst m) /\
  Forall (fun kv => fst kv = m_id (e_message (snd kv)) /\
                    is_shown (e_message (snd kv)) = true) m.

(** A tool call without its status and result. *)
Definition erase_status (tc : ToolCall) : string * string * Json :=
  (tc_id tc, tc_name tc, tc_args tc).

Definition erase_entry (kv : option string * Entry)
  : option string * Message * list (string * string * Json) :=
  (fst kv, e_message (snd kv), map erase_status (e_toolCalls (snd kv))).

Definition is_tool (m : Message) : bool :=
  bool_decide (m_type m = Some "tool").

(** A tool call is pending without result, or completed with the text of a
    tool message of [msgs] that names it. *)
Definition toolCall_justified (msgs : list Message) (tc : ToolCall) : Prop :=
  (tc_status tc = StatusPending /\ tc_result tc = None) \/
  (tc_status tc = StatusCompleted /\
   exists m, m ∈ msgs /\ m_type m = Some "tool" /\
             m_tool_call_id m = Some (tc_id tc) /\
             tc_result tc = Some (extractStringFromMessageContent m)).

(** [m] is an AI or human message with id [key]. *)
Definition carries (key : option string) (m : Message) : bool :=
  is_shown m && bool_decide (m_id m = key).

(** What is shown of a processed message apart from the status and result
    of its tool calls. *)
Definition erase_processed (p : Processed)
  : Message * list (string * string * Json) * bool :=
  (pr_message p, map erase_status (pr_toolCalls p), pr_showAvatar p).

(** The map and the count of random ids drawn after the turns of [forEach]
    over [l]. *)
Definition process_all (rand : nat -> string) (l : list Message)
  : list (option string * Entry) * nat :=
  fold_left (fun acc message => process_message rand message acc) l ([], 0).

(** ** Sample messages *)

Definition search_call : Block :=
  {| b_type := None; b_text := None; b_id := Some "t1";
     b_name := Some "search"; b_args := Some (JObj []); b_input := None;
     b_function := None |}.

Definition ai_with_call : Message :=
  {| m_id := Some "m1"; m_type := Some "ai"; m_content := ContentString "";
     m_tool_calls := Some [search_call]; m_kwargs_tool_calls := None;
     m_tool_call_id := None |}.

Definition tool_result : Message :=
  {| m_id := Some "m2"; m_type := Some "tool";
     m_content := ContentString "3 hits";
     m_tool_calls := None; m_kwargs_tool_calls := None;
     m_tool_call_id := Some "t1" |}.

Definition completed_search : ToolCall :=
  {| tc_id := "t1"; tc_name := "search"; tc_args := JObj [];
     tc_result := Some "3 hits"; tc_status := StatusCompleted |}.

(** * Sending a message: [handleSubmit] (ChatInterface.tsx) and
    [sendMessage] (useChat.ts) *)

(** ** Strings *)

(** Strings are sequences of code units, of which the model has those below
    256.  Among them [String.prototype.trim] removes the white space and
    line terminators: 9 to 13, 32 and 160. *)
Definition is_white_space (c : ascii) : bool :=
  let n := nat_of_ascii c in
  ((9 <=? n)%nat && (n <=? 13)%nat) || (n =? 32)%nat || (n =? 160)%nat.

Fixpoint trim_start (s : string) : string :=
  match s with
  | EmptyString => EmptyString
  | String c s' => if is_white_space c then trim_start s' else s
  end.

Fixpoint trim_end (s : string) : string :=
  match s with
  | EmptyString => EmptyString
  | String c s' =>
      match trim_end s' with
      | EmptyString =>
          if is_white_space c then EmptyString else String c EmptyString
      | t => String c t
      end
  end.

(** [s.trim()] *)
Definition trim (s : string) : string := trim_end (trim_start s).

(** [l.join(sep)] *)
Fixpoint join (sep : string) (l : list string) : string :=
  match l with
  | [] => ""
  | [x] => x
  | x :: l' => x +:+ sep +:+ join sep l'
  end.

Definition double_quote : ascii := "034"%char.
Definition line_feed : ascii := "010"%char.

(** [`"${url}"`] *)
Definition quoted (url : string) : string :=
  String double_quote (url +:+ String double_quote "").

(** ** [sendMessage], lines 192-226: the message submitted *)

(** The text appended for a non-empty list of image URLs (line 211). *)
Definition image_suffix (imageUrls : list string) : string :=
  String line_feed (String line_feed
    ("Here are " +:+ pretty (length imageUrls) +:+ " imageurl"
     +:+ (if (1 <? length imageUrls)%nat then "s" else "") +:+ ": "
     +:+ join ", " (map quoted imageUrls))).

(** [fullMessage] after line 212; [imageUrls] is [None] for [undefined]. *)
Definition fullMessage (message : string) (imageUrls : option (list string))
  : string :=
  match imageUrls with
  | Some urls =>
      if (0 <? length urls)%nat then trim message +:+ image_suffix urls
      else trim message
  | None => trim message
  end.

(** [{ type: "text", text }] *)
Definition text_part (text : string) : ContentPart :=
  PartObject {| b_type := Some "text"; b_text := Some text; b_id := None;
                b_name := None; b_args := None; b_input := None;
                b_function := None |}.

Definition contentParts (message : string) (imageUrls : option (list string))
  : list ContentPart :=
  if truthy (Some (fullMessage message imageUrls))
  then [text_part (fullMessage message imageUrls)] else [].

(** [contentParts.length > 0 ? contentParts : message] *)
Definition sendMessage_content (message : string)
    (imageUrls : option (list string)) : Content :=
  if (0 <? length (contentParts message imageUrls))%nat
  then ContentArray (contentParts message imageUrls)
  else ContentString message.

(** [humanMessage]; [uuid] is the value of [uuidv4()]. *)
Definition humanMessage (uuid message : string)
    (imageUrls : option (list string)) : Message :=
  {| m_id := Some uuid; m_type := Some "human";
     m_content := sendMessage_content message imageUrls;
     m_tool_calls := None; m_kwargs_tool_calls := None;
     m_tool_call_id := None |}.

(** The messages of [optimisticValues(prev)]:
    [[...(prev.messages ?? []), humanMessage]]. *)
Definition optimisticValues (prev_messages : option (list Message))
    (humanMessage : Message) : list Message :=
  default [] prev_messages ++ [humanMessage].

(** ** [handleSubmit] (ChatInterface.tsx) *)

(** The arguments of the call of [sendMessage], if it is reached.
    [uploadedImages] is the number of images attached, and [uploads] the
    outcome of [Promise.all] over their uploads: the URLs, or [None] when
    one of them is rejected, which the [catch] swallows. *)
Definition handleSubmit (input : string) (uploadedImages : nat)
    (isLoading : bool) (uploads : option (list string))
  : option (string * option (list string)) :=
  let messageText := trim input in
  if (negb (truthy (Some messageText)) && (uploadedImages =? 0)%nat)
     || isLoading
  then None
  else if (0 <? uploadedImages)%nat then
    match uploads with
    | Some imageUrls =>
        Some (messageText,
              if (0 <? length imageUrls)%nat then Some imageUrls else None)
    | None => None
    end
  else Some (messageText, None).

(** ** [handleUpdateEvent], lines 41-71 *)

(** [Partial<StateType>]: what a node reports; a field is [None] when it is
    missing or not truthy. *)
Record NodeData := {
  nd_todos : option Json;
  nd_files : option Json;
}.

Inductive UpdateCall :=
| TodosUpdate (todos : Json)
| FilesUpdate (files : Json).

(** The calls made for one entry of [Object.entries(data)]; [nodeData] is
    [None] when the value is [null] or [undefined]. *)
Definition update_calls (nodeData : option NodeData) : list UpdateCall :=
  match nodeData with
  | Some nd =>
      match nd_todos nd with Some t => [TodosUpdate t] | None => [] end ++
      match nd_files nd with Some f => [FilesUpdate f] | None => [] end
  | None => []
  end.

(** The calls of [onTodosUpdate] and [onFilesUpdate], in order. *)
Definition handleUpdateEvent (data : list (string * option NodeData))
  : list UpdateCall :=
  flat_map (fun entry => update_calls (snd entry)) data.

(** [page.tsx] passes [setTodos] and [setFiles] as the two callbacks; the
    state they set is the pair of the todos and the files. *)
Definition page_update (st : Json * Json) (c : UpdateCall) : Json * Json :=
  match c with
  | TodosUpdate t => (t, snd st)
  | FilesUpdate f => (fst st, f)
  end.

Definition page_after_update (data : list (string * option NodeData))
    (st : Json * Json) : Json * Json :=
  fold_left page_update (handleUpdateEvent data) st.

(** ** Notions for the statements *)

(** [s] does not begin with white space. *)
Definition no_leading_space (s : string) : Prop :=
  match s with
  | EmptyString => True
  | String c _ => is_white_space c = false
  end.

(** [imageUrls && imageUrls.length > 0] fails. *)
Definition no_images (imageUrls : option (list string)) : bool :=
  match imageUrls with
  | Some (_ :: _) => false
  | _ => true
  end.

(** The text appended by [sendMessage] for [imageUrls]. *)
Definition suffix_of (imageUrls : option (list string)) : string :=
  match imageUrls with
  | Some (url :: urls) => image_suffix (url :: urls)
  | _ => ""
  end.

(** The todos and the files a node reports. *)
Definition todos_of (entry : string * option NodeData) : option Json :=
  snd entry ≫= nd_todos.

Definition files_of (entry : string * option NodeData) : option Json :=
  snd entry ≫= nd_files.

(** * Proofs *)

Lemma live_not_cancelled cl h :
  live cl h -> is_cancelled (c_cancelled cl) h = false.
Proof. unfold live, is_cancelled. by intros ->. Qed.

Lemma torn_down_cancelled cl h :
  torn_down cl h -> is_cancelled (c_cancelled cl) h = true.
Proof. unfold torn_down, is_cancelled. by intros ->. Qed.

(** ** Basic facts about the detector's building blocks *)

Lemma clear_if_marked_live cl h :
  live cl h ->
  clear_if_marked cl h =
    if is_null (lastInterruptId h) then mkOut (Normal tt) h []
    else mkOut (Normal tt) (cleared h) [SetInterruptState None].
Proof.
  intros Hc. unfold clear_if_marked. rewrite (live_not_cancelled _ _ Hc).
  by destruct (lastInterruptId h).
Qed.

Lemma clear_if_marked_torn_down cl h :
  torn_down cl h -> clear_if_marked cl h = mkOut (Normal tt) h [].
Proof.
  intros Hc. unfold clear_if_marked. by rewrite (torn_down_cancelled _ _ Hc).
Qed.


Lemma publish_torn_down cl r h :
  torn_down cl h -> publish cl r h = mkOut (Normal tt) h [].
Proof.
  intros Hc. unfold publish. by rewrite (torn_down_cancelled _ _ Hc).
Qed.

Lemma handled_true_iff (oid : option string) h :
  handled oid h = true <->
  exists i, oid = Some i /\ truthy (Some i) = true /\ i ∈ handledInterruptIds h.
Proof.
  unfold handled, set_has. destruct oid as [i|].
  - rewrite andb_true_iff, bool_decide_eq_true. split.
    + intros [Ht Hin]. by exists i.
    + intros (j & Hj & Ht & Hin). by injection Hj as ->.
  - split; [done|]. by intros (j & Hj & _).
Qed.

Lemma handled_false_iff (oid : option string) h :
  handled oid h = false <->
  forall i, oid = Some i -> truthy (Some i) = true -> i ∉ handledInterruptIds h.
Proof.
  rewrite <- not_true_iff_false, handled_true_iff. split.
  - intros Hn i Hi Ht Hin. apply Hn. by exists i.
  - intros Hn (i & Hi & Ht & Hin). by apply (Hn i).
Qed.

Lemma consider_handled cl itr r h :
  handled (i_id itr) h = true ->
  consider cl itr r h = clear_if_marked cl h.
Proof. intros Hh. unfold consider. by rewrite Hh. Qed.

Lemma consider_unhandled cl itr r h :
  handled (i_id itr) h = false ->
  consider cl itr r h =
    if strict_eq (i_id itr) (lastInterruptId h) then mkOut (Normal tt) h []
    else publish cl r h.
Proof. intros Hh. unfold consider. by rewrite Hh. Qed.

(** The part of a tick before the query never throws, so its [catch] block
    is dead. *)
Lemma checkInterrupts_sync_eq cl stream h :
  checkInterrupts_sync cl stream h =
    match s_interrupt stream with
    | Some itr =>
        let o := consider cl itr (live_record cl stream itr) h in
        mkOut (Normal Finished) (after o) (trace o)
    | None => mkOut (Normal Awaiting) h []
    end.
Proof.
  unfold checkInterrupts_sync, try_catch, bind, ret.
  destruct (s_interrupt stream) as [itr|]; [|done].
  unfold consider, clear_if_marked, publish, bind, ret, set_last,
    setInterruptState.
  destruct (handled (i_id itr) h),
    (strict_eq (i_id itr) (lastInterruptId h)),
    (is_cancelled (c_cancelled cl) h), (lastInterruptId h); reflexivity.
Qed.

Lemma clear_if_marked_normal cl h :
  completion (clear_if_marked cl h) = Normal tt.
Proof.
  unfold clear_if_marked.
  by destruct (negb _ && _).
Qed.

Lemma consider_normal cl itr r h :
  completion (consider cl itr r h) = Normal tt.
Proof.
  unfold consider, publish.
  destruct (handled _ _); [apply clear_if_marked_normal|].
  destruct (strict_eq _ _); [done|]. by destruct (negb _).
Qed.

Lemma fallback_branch_normal cl st h :
  completion (fallback_branch cl st h) = Normal tt.
Proof.
  unfold fallback_branch.
  destruct (allInterrupts st); [apply clear_if_marked_normal|].
  destruct (negb _); [|apply clear_if_marked_normal].
  destruct (truthy_values st);
    [apply consider_normal|apply clear_if_marked_normal].
Qed.

(** The part of a tick after the query: a rejected query is handled like
    the absence of any interrupt. *)
Lemma checkInterrupts_resume_eq cl q h :
  checkInterrupts_resume cl q h =
    match q with
    | Resolved st => fallback_branch cl st h
    | Rejected => clear_if_marked cl h
    end.
Proof.
  unfold checkInterrupts_resume, try_catch, throw.
  destruct q as [st|].
  - pose proof (fallback_branch_normal cl st h) as Hn.
    destruct (fallback_branch cl st h) as [[[]|] h' t]; by simplify_eq/=.
  - by destruct (clear_if_marked cl h).
Qed.

Lemma checkInterrupts_eq cl stream q h :
  checkInterrupts cl stream q h =
    match s_interrupt stream with
    | Some itr => consider cl itr (live_record cl stream itr) h
    | None => checkInterrupts_resume cl q h
    end.
Proof.
  unfold checkInterrupts, bind. rewrite checkInterrupts_sync_eq.
  destruct (s_interrupt stream) as [itr|]; simpl.
  - pose proof (consider_normal cl itr (live_record cl stream itr) h) as Hn.
    destruct (consider _ _ _ _) as [[[]|] h' t]; simplify_eq/=.
    by rewrite app_nil_r.
  - by destruct (checkInterrupts_resume cl q h).
Qed.


(** Without a candidate a tick only clears. *)
Lemma checkInterrupts_no_candidate cl stream q h :
  candidate cl stream q = None ->
  checkInterrupts cl stream q h = clear_if_marked cl h.
Proof.
  intros Hcand. rewrite checkInterrupts_eq. unfold candidate in Hcand.
  destruct (s_interrupt stream) as [i|]; [done|].
  rewrite checkInterrupts_resume_eq.
  destruct q as [st|]; [|done]. unfold fallback_branch.
  destruct (allInterrupts st) as [|i l]; [done|].
  destruct (truthy_values st) as [v|]; [done|]. by destruct (negb _).
Qed.

Lemma consider_torn_down cl itr r h :
  torn_down cl h -> consider cl itr r h = mkOut (Normal tt) h [].
Proof.
  intros Hc. unfold consider.
  rewrite clear_if_marked_torn_down, publish_torn_down by done.
  by destruct (handled (i_id itr) h),
       (strict_eq (i_id itr) (lastInterruptId h)).
Qed.

Lemma checkInterrupts_sync_torn_down cl stream h :
  torn_down cl h ->
  after (checkInterrupts_sync cl stream h) = h /\
  trace (checkInterrupts_sync cl stream h) = [].
Proof.
  intros Hc. rewrite checkInterrupts_sync_eq.
  destruct (s_interrupt stream); [|done].
  by rewrite consider_torn_down.
Qed.

Lemma checkInterrupts_resume_torn_down cl q h :
  torn_down cl h ->
  checkInterrupts_resume cl q h = mkOut (Normal tt) h [].
Proof.
  intros Hc. rewrite checkInterrupts_resume_eq.
  destruct q as [st|]; [|by apply clear_if_marked_torn_down].
  unfold fallback_branch. rewrite (torn_down_cancelled _ _ Hc); simpl.
  rewrite clear_if_marked_torn_down by done.
  by destruct (allInterrupts st).
Qed.

Lemma clear_if_marked_result cl h :
  tick_result h (after (clear_if_marked cl h)) (trace (clear_if_marked cl h)).
Proof.
  unfold clear_if_marked.
  destruct (negb _); simpl; [|constructor].
  destruct (lastInterruptId h) eqn:Hl; simpl; [|constructor].
  apply tick_clears. by rewrite Hl.
Qed.

Lemma consider_result cl itr r h :
  interruptId r = i_id itr ->
  tick_result h (after (consider cl itr r h)) (trace (consider cl itr r h)).
Proof.
  intros Hid. destruct (handled (i_id itr) h) eqn:Hh.
  - rewrite consider_handled by done. apply clear_if_marked_result.
  - rewrite consider_unhandled by done.
    destruct (strict_eq _ _) eqn:Hs; simpl; [constructor|].
    unfold publish. destruct (negb _); simpl; [|constructor].
    apply (tick_publishes h r). split; rewrite Hid; [|done].
    by apply handled_false_iff.
Qed.

Lemma checkInterrupts_sync_result cl stream h :
  let o := checkInterrupts_sync cl stream h in
  (exists s, completion o = Normal s) /\ tick_result h (after o) (trace o).
Proof.
  simpl. rewrite checkInterrupts_sync_eq.
  destruct (s_interrupt stream) as [itr|]; simpl.
  - split; [eauto|]. by apply consider_result.
  - split; [eauto|constructor].
Qed.

Lemma checkInterrupts_resume_result cl q h :
  let o := checkInterrupts_resume cl q h in
  completion o = Normal tt /\ tick_result h (after o) (trace o).
Proof.
  simpl. rewrite checkInterrupts_resume_eq. destruct q as [st|].
  - split; [apply fallback_branch_normal|]. unfold fallback_branch.
    destruct (allInterrupts st) as [|itr l]; [apply clear_if_marked_result|].
    destruct (negb _); [|apply clear_if_marked_result].
    destruct (truthy_values st) as [v|]; [|apply clear_if_marked_result].
    by apply consider_result.
  - split; [apply clear_if_marked_normal|apply clear_if_marked_result].
Qed.

(** ** Basic facts about [resumeRun] *)

Ltac resume_all :=
  unfold resumeRun_closure, resume_attempt, submit, ledger_add, ledger_delete,
    with_ledger, set_last, setInterruptState, when, bind, ret, try_catch;
  simpl.

Lemma resumeRun_closure_guard c token throws d ed h :
  c = None \/ truthy token = false ->
  resumeRun_closure c token throws d ed h = mkOut (Normal tt) h [].
Proof.
  intros [Hn|Hn]; unfold resumeRun_closure; rewrite Hn; [done|].
  by destruct c.
Qed.

Lemma resumeRun_closure_edit token throws ed h r :
  truthy token = true ->
  resumeRun_closure (Some r) token throws edit ed h =
    mkOut (Normal tt) (marked r h) [SetInterruptState None].
Proof.
  intros Ht. resume_all. rewrite Ht; simpl.
  unfold marked, add_handled.
  destruct (interruptId r) as [i|]; simpl; [|done].
  by destruct (truthy (Some i)).
Qed.

Lemma resumeRun_closure_submitted token d ed h r e :
  truthy token = true ->
  (d = approve /\ e = TypeApprove \/ d = reject /\ e = TypeReject) ->
  resumeRun_closure (Some r) token false d ed h =
    mkOut (Normal tt) (marked r h)
      [SetInterruptState None; Submit (uniform e r) (seen (marked r h))].
Proof.
  intros Ht Hd. resume_all. rewrite Ht; simpl.
  unfold marked, add_handled, uniform, seen.
  destruct Hd as [[-> ->]|[-> ->]];
    (destruct (interruptId r) as [i|]; simpl; [|done]);
    by destruct (truthy (Some i)).
Qed.

Lemma resumeRun_closure_failed token d ed h r e i :
  truthy token = true ->
  (d = approve /\ e = TypeApprove \/ d = reject /\ e = TypeReject) ->
  interruptId r = Some i -> truthy (Some i) = true ->
  resumeRun_closure (Some r) token true d ed h =
    mkOut (Normal tt) (rolled_back r i h)
      [SetInterruptState None; Submit (uniform e r) (seen (marked r h));
       SetInterruptState (Some r)].
Proof.
  intros Ht Hd Hi Hti. resume_all. rewrite Ht; simpl.
  unfold marked, add_handled, uniform, seen, rolled_back.
  destruct Hd as [[-> ->]|[-> ->]]; rewrite !Hi, !Hti; simpl;
    by rewrite ?Hi, ?Hti.
Qed.

Lemma resumeRun_closure_failed_no_id token d ed h r e :
  truthy token = true ->
  (d = approve /\ e = TypeApprove \/ d = reject /\ e = TypeReject) ->
  truthy (interruptId r) = false ->
  resumeRun_closure (Some r) token true d ed h =
    mkOut (Normal tt) (marked r h)
      [SetInterruptState None; Submit (uniform e r) (seen (marked r h))].
Proof.
  intros Ht Hd Hti. resume_all. rewrite Ht; simpl.
  unfold marked, add_handled, uniform, seen.
  destruct Hd as [[-> ->]|[-> ->]];
    (destruct (interruptId r) as [i|]; simpl; [|done]);
    rewrite !Hti; simpl; by rewrite ?Hti.
Qed.

(** The same for the callback of a render that has seen the cell. *)
Lemma resumeRun_guard token throws d ed h :
  interruptState h = None \/ truthy token = false ->
  resumeRun token throws d ed h = mkOut (Normal tt) h [].
Proof. intros H. unfold resumeRun. by apply resumeRun_closure_guard. Qed.

Lemma resumeRun_edit token throws ed h r :
  interruptState h = Some r -> truthy token = true ->
  resumeRun token throws edit ed h =
    mkOut (Normal tt) (marked r h) [SetInterruptState None].
Proof.
  intros Hr Ht. unfold resumeRun. rewrite Hr.
  by apply resumeRun_closure_edit.
Qed.

Lemma resumeRun_submitted token d ed h r e :
  interruptState h = Some r -> truthy token = true ->
  (d = approve /\ e = TypeApprove \/ d = reject /\ e = TypeReject) ->
  resumeRun token false d ed h =
    mkOut (Normal tt) (marked r h)
      [SetInterruptState None; Submit (uniform e r) (seen (marked r h))].
Proof.
  intros Hr Ht Hd. unfold resumeRun. rewrite Hr.
  by apply resumeRun_closure_submitted.
Qed.

Lemma resumeRun_failed token d ed h r e i :
  interruptState h = Some r -> truthy token = true ->
  (d = approve /\ e = TypeApprove \/ d = reject /\ e = TypeReject) ->
  interruptId r = Some i -> truthy (Some i) = true ->
  resumeRun token true d ed h =
    mkOut (Normal tt) (rolled_back r i h)
      [SetInterruptState None; Submit (uniform e r) (seen (marked r h));
       SetInterruptState (Some r)].
Proof.
  intros Hr Ht Hd Hi Hti. unfold resumeRun. rewrite Hr.
  by apply resumeRun_closure_failed.
Qed.

Lemma resumeRun_failed_no_id token d ed h r e :
  interruptState h = Some r -> truthy token = true ->
  (d = approve /\ e = TypeApprove \/ d = reject /\ e = TypeReject) ->
  truthy (interruptId r) = false ->
  resumeRun token true d ed h =
    mkOut (Normal tt) (marked r h)
      [SetInterruptState None; Submit (uniform e r) (seen (marked r h))].
Proof.
  intros Hr Ht Hd Hti. unfold resumeRun. rewrite Hr.
  by apply resumeRun_closure_failed_no_id.
Qed.

(** The five things a call of the callback can do. *)
Lemma resumeRun_closure_cases c token throws d ed h :
  let o := resumeRun_closure c token throws d ed h in
  o = mkOut (Normal tt) h [] \/
  exists r, c = Some r /\ truthy token = true /\
    ((exists sub, o = mkOut (Normal tt) (marked r h)
                        (SetInterruptState None :: sub) /\
        (sub = [] \/ exists rv, sub = [Submit rv (seen (marked r h))]) /\
        (throws = false \/ d = edit \/ truthy (interruptId r) = false)) \/
     (exists i rv, throws = true /\ d <> edit /\
        interruptId r = Some i /\ truthy (Some i) = true /\
        o = mkOut (Normal tt) (rolled_back r i h)
              [SetInterruptState None; Submit rv (seen (marked r h));
               SetInterruptState (Some r)])).
Proof.
  simpl. destruct c as [r|];
    [|left; by apply resumeRun_closure_guard; left].
  destruct (truthy token) eqn:Ht;
    [|left; by apply resumeRun_closure_guard; right].
  right. exists r. split; [done|]. split; [done|].
  assert (Hsub : forall e,
    (d = approve /\ e = TypeApprove \/ d = reject /\ e = TypeReject) ->
    (exists sub, resumeRun_closure (Some r) token throws d ed h =
                   mkOut (Normal tt) (marked r h)
                     (SetInterruptState None :: sub) /\
        (sub = [] \/ exists rv, sub = [Submit rv (seen (marked r h))]) /\
        (throws = false \/ d = edit \/ truthy (interruptId r) = false)) \/
    (exists i rv, throws = true /\ d <> edit /\
        interruptId r = Some i /\ truthy (Some i) = true /\
        resumeRun_closure (Some r) token throws d ed h =
          mkOut (Normal tt) (rolled_back r i h)
            [SetInterruptState None; Submit rv (seen (marked r h));
             SetInterruptState (Some r)])).
  { intros e He.
    assert (Hd : d <> edit) by (by destruct He as [[-> _]|[-> _]]).
    destruct throws.
    - destruct (truthy (interruptId r)) eqn:Hti.
      + destruct (interruptId r) as [i|] eqn:Hi; [|done].
        right. exists i, (uniform e r).
        by rewrite (resumeRun_closure_failed _ _ _ _ r e i).
      + left. eexists.
        rewrite (resumeRun_closure_failed_no_id _ _ _ _ r e) by done.
        split; [done|]. split; [right; by eexists|auto].
    - left. eexists. rewrite (resumeRun_closure_submitted _ _ _ _ r e) by done.
      split; [done|]. split; [right; by eexists|auto]. }
  destruct d; [apply (Hsub TypeApprove); auto|apply (Hsub TypeReject); auto|].
  left. exists []. rewrite resumeRun_closure_edit by done. auto.
Qed.

(** ** Every step is a sequence of elementary moves *)

Lemma moves_one b c h h' e : hook_move b c h h' e -> moves b c h h' e.
Proof.
  intros Hm. rewrite <- (app_nil_r e). eapply moves_cons; [done|constructor].
Qed.

Lemma moves_app b c h1 h2 h3 e1 e2 :
  moves b c h1 h2 e1 -> moves b c h2 h3 e2 -> moves b c h1 h3 (e1 ++ e2).
Proof.
  induction 1 as [|? ? ? ? ? Hm _ IH]; intros H2; [done|].
  rewrite <- app_assoc. eapply moves_cons; [done|]. by apply IH.
Qed.

Lemma start_tick_moves b c cl stream s :
  moves b c (hook s) (hook (fst (start_tick cl stream s)))
    (snd (start_tick cl stream s)).
Proof.
  unfold start_tick; simpl. apply moves_one, move_tick.
  apply checkInterrupts_sync_result.
Qed.

Lemma resumeRun_closure_moves b c token throws d ed h :
  let o := resumeRun_closure c token throws d ed h in
  completion o = Normal tt /\ moves b c h (after o) (trace o).
Proof.
  destruct (resumeRun_closure_cases c token throws d ed h)
    as [->|(r & Hc & _ & [(sub & -> & Hsub & _)
                         |(i & rv & _ & _ & Hi & Hti & ->)])]; simpl.
  - split; [done|constructor].
  - split; [done|]. by apply moves_one, move_resolved.
  - split; [done|]. by apply moves_one, move_failed.
Qed.

Lemma detector_effect_off p h :
  detector_off p = true ->
  detector_effect p h = mkOut (Normal None) (cleared h) [SetInterruptState None].
Proof.
  intros Hoff. unfold detector_effect.
  destruct (p_threadId p), (p_accessToken p); try done.
  by rewrite Hoff.
Qed.

Lemma detector_effect_on p h :
  detector_off p = false ->
  exists t a,
    p_threadId p = Some t /\ p_accessToken p = Some a /\
    detector_effect p h =
      mkOut
        (Normal (Some {| c_threadId := t; c_accessToken := a;
                         c_cancelled := length (cancelled h) |}))
        (with_cells (cancelled h ++ [false]) h) [].
Proof.
  intros Hoff. unfold detector_effect.
  unfold detector_off in Hoff.
  destruct (p_threadId p) as [t|] eqn:Ht;
    [|by rewrite orb_true_r in Hoff].
  destruct (p_accessToken p) as [a|] eqn:Ha; [|by rewrite orb_true_r in Hoff].
  exists t, a. unfold detector_off. rewrite Ht, Ha, Hoff. done.
Qed.

Lemma render_eq p stream s :
  render p stream s =
    let evs1 := if thread_changed (props s) p
                then [SetInterruptState None] else [] in
    if detector_deps_changed (props s) p then
      let o2 := detector_effect p (after_reset p s) in
      match completion o2 with
      | Normal (Some cl) =>
          let r := start_tick cl stream
                     {| hook := after o2; props := Some p;
                        timer := Some cl; inflight := inflight s;
                        rendered := interruptState (hook s) |} in
          (fst r, evs1 ++ trace o2 ++ snd r)
      | _ =>
          ({| hook := after o2; props := Some p;
              timer := None; inflight := inflight s;
              rendered := interruptState (hook s) |},
           evs1 ++ trace o2)
      end
    else
      ({| hook := after_reset p s; props := Some p;
          timer := timer s; inflight := inflight s;
          rendered := interruptState (hook s) |}, evs1).
Proof.
  unfold render, after_reset, after_cleanup, when, bind; simpl.
  destruct (detector_deps_changed (props s) p) eqn:Hd; simpl.
  - destruct (timer s) as [cl|]; simpl;
      destruct (thread_changed (props s) p); simpl;
      destruct (completion (detector_effect p _)) as [[cl'|]|]; simpl;
      try done; by destruct (start_tick _ _ _).
  - destruct (thread_changed (props s) p); simpl; done.
Qed.

Lemma after_cleanup_moves b c p s :
  moves b c (hook s) (after_cleanup p s) [].
Proof.
  unfold after_cleanup.
  destruct (detector_deps_changed _ _); [|constructor].
  destruct (timer s); [|constructor].
  apply moves_one, move_cells.
Qed.

Lemma after_reset_moves c p s :
  moves (thread_changed (props s) p) c (hook s) (after_reset p s)
    (if thread_changed (props s) p then [SetInterruptState None] else []).
Proof.
  unfold after_reset. destruct (thread_changed (props s) p) eqn:Ht.
  - change [SetInterruptState None] with ([] ++ [SetInterruptState None]).
    eapply moves_app; [apply after_cleanup_moves|].
    by apply moves_one, move_reset.
  - apply after_cleanup_moves.
Qed.

Lemma detector_effect_moves b c p h :
  let o := detector_effect p h in
  moves b c h (after o) (trace o).
Proof.
  simpl. destruct (detector_off p) eqn:Hoff.
  - rewrite detector_effect_off by done. apply moves_one, move_off.
  - destruct (detector_effect_on p h Hoff) as (t & a & _ & _ & ->).
    apply moves_one, move_cells.
Qed.

Lemma render_moves c p stream s :
  moves (thread_changed (props s) p) c (hook s)
    (hook (fst (render p stream s))) (snd (render p stream s)).
Proof.
  rewrite render_eq; simpl.
  destruct (detector_deps_changed (props s) p); simpl;
    [|apply after_reset_moves].
  pose proof (detector_effect_moves (thread_changed (props s) p) c p
                (after_reset p s)) as Hd; simpl in Hd.
  destruct (completion (detector_effect p (after_reset p s)))
    as [[cl|]|] eqn:Hc; simpl.
  - eapply moves_app; [apply after_reset_moves|].
    eapply moves_app; [apply Hd|].
    apply (start_tick_moves _ _ cl stream
             {| hook := after (detector_effect p (after_reset p s));
                props := Some p; timer := Some cl; inflight := inflight s;
                rendered := interruptState (hook s) |}).
  - eapply moves_app; [apply after_reset_moves|apply Hd].
  - eapply moves_app; [apply after_reset_moves|apply Hd].
Qed.

(** Every operation of the component is a sequence of elementary moves;
    only a commit that changes [threadId] may use the reset, and a resolve
    acts on the record the latest render saw. *)
Lemma step_moves op s :
  moves (may_change_thread op s) (rendered s) (hook s)
    (hook (fst (step op s))) (snd (step op s)).
Proof.
  destruct op as [p stream|stream|n q|d ed throws|]; simpl.
  - apply render_moves.
  - destruct (timer s) as [cl|]; [apply start_tick_moves|constructor].
  - destruct (inflight s !! n) as [cl|]; simpl; [|constructor].
    apply moves_one, move_tick, checkInterrupts_resume_result.
  - apply resumeRun_closure_moves.
  - constructor.
Qed.

(** ** Invariants of the cells *)

Lemma in_sync_move b sr h h' evs :
  hook_move b sr h h' evs -> in_sync h -> in_sync h'.
Proof.
  unfold in_sync.
  destruct 1 as [h' evs Ht|c| |  |r sub Hr _|r i rv Hr Hi Ht]; simpl;
    try done.
  - destruct Ht; simpl; done.
  - intros _. unfold or_else. by rewrite Hi, Ht.
Qed.

Lemma in_sync_moves b c h h' evs :
  moves b c h h' evs -> in_sync h -> in_sync h'.
Proof. induction 1; eauto using in_sync_move. Qed.

Lemma elem_of_set_add (i j : string) (s : gset string) :
  i ∈ set_add j s <-> i = j \/ i ∈ s.
Proof. unfold set_add. set_solver. Qed.

Lemma elem_of_set_delete (i j : string) (s : gset string) :
  i ∈ set_delete j s <-> i ∈ s /\ i <> j.
Proof. unfold set_delete. set_solver. Qed.

Lemma elem_of_add_handled (i : string) oid (s : gset string) :
  i ∈ add_handled oid s <-> (oid = Some i /\ truthy oid = true) \/ i ∈ s.
Proof.
  unfold add_handled. destruct oid as [j|].
  - destruct (truthy (Some j)) eqn:Ht.
    + rewrite elem_of_set_add. split.
      * intros [->|?]; auto.
      * intros [[[= ->] _]|?]; auto.
    + split; [auto|]. intros [[_ ?]|?]; [congruence|done].
  - split; [auto|]. intros [[? _]|?]; done.
Qed.

Lemma unhandled_display_move b sr h h' evs :
  hook_move b sr h h' evs -> unhandled_display h -> unhandled_display h'.
Proof.
  unfold unhandled_display.
  destruct 1 as [h' evs Ht|c| |  |r sub Hr _|r i rv Hr Hi Ht]; simpl;
    try done.
  - destruct Ht as [|?|r [Hf _]]; simpl; try done.
    intros _ r' i ? Hi Ht; simplify_eq. by apply Hf.
  - intros _ r' j ? Hj Htj; simplify_eq.
    rewrite elem_of_set_delete. by intros [_ ?].
Qed.

Lemma unhandled_display_moves b c h h' evs :
  moves b c h h' evs -> unhandled_display h -> unhandled_display h'.
Proof. induction 1; eauto using unhandled_display_move. Qed.

(** ** The resume coordinator and the sync invariant: theorems *)

(** C9.  The marker and the displayed record never fall out of sync: if,
    before an operation of the component (a detector tick, the return of a
    fallback query, a resolve with or without failure, a commit that changes
    the conversation, the credential or the feature flag), the marker is
    null when nothing is displayed and is the displayed record's
    [interruptId] otherwise (null when that id is missing or empty), then
    the same holds after the operation. *)
Theorem marker_in_sync_kept (op : Op) (s : Sys) :
  in_sync (hook s) -> in_sync (hook (fst (step op s))).
Proof. intros Hs. eapply in_sync_moves; [apply step_moves|done]. Qed.

Lemma marker_in_sync_kept_witness :
  in_sync (hook (fst (run displayed_i1 initial))) /\
  in_sync (hook (fst (step (Resolve reject None true)
                        (fst (run displayed_i1 initial))))).
Proof.
  split; [reflexivity|].
  apply (marker_in_sync_kept (Resolve reject None true)
           (fst (run displayed_i1 initial))).
  reflexivity.
Defined.

(** Every reachable state is in sync. *)
Lemma marker_in_sync_reachable ops s :
  in_sync (hook s) -> in_sync (hook (fst (run ops s))).
Proof.
  revert s. induction ops as [|op ops IH]; intros s Hs; simpl; [done|].
  pose proof (in_sync_moves _ _ _ _ _ (step_moves op s) Hs) as H1.
  destruct (step op s) as [s1 e1]; simpl in *.
  specialize (IH s1 H1). by destruct (run ops s1).
Qed.

(** The calls made by a resolve of the displayed record [r]: the display is
    cleared first, then comes at most one submit, which sees the marked
    cells, then possibly the restoring [setInterruptState]. *)
Lemma resumeRun_trace_shape token throws d ed h r :
  interruptState h = Some r -> truthy token = true ->
  let o := resumeRun token throws d ed h in
  d = edit /\ trace o = [SetInterruptState None] \/
  exists e rest,
    (d = approve /\ e = TypeApprove \/ d = reject /\ e = TypeReject) /\
    trace o =
      SetInterruptState None :: Submit (uniform e r) (seen (marked r h)) :: rest
    /\ (rest = [] \/ rest = [SetInterruptState (Some r)]).
Proof.
  intros Hr Ht o. subst o.
  assert (Hsub : forall e,
    (d = approve /\ e = TypeApprove \/ d = reject /\ e = TypeReject) ->
    exists rest,
      trace (resumeRun token throws d ed h) =
        SetInterruptState None :: Submit (uniform e r) (seen (marked r h))
          :: rest
      /\ (rest = [] \/ rest = [SetInterruptState (Some r)])).
  { intros e He. destruct throws.
    - destruct (truthy (interruptId r)) eqn:Hti.
      + destruct (interruptId r) as [i|] eqn:Hi; [|done].
        rewrite (resumeRun_failed _ _ _ _ r e i) by auto. eauto.
      + rewrite (resumeRun_failed_no_id _ _ _ _ r e) by auto. eauto.
    - rewrite (resumeRun_submitted _ _ _ _ r e) by auto. eauto. }
  destruct d.
  - right. destruct (Hsub TypeApprove) as (rest & ? & ?); [auto|].
    exists TypeApprove, rest. auto.
  - right. destruct (Hsub TypeReject) as (rest & ? & ?); [auto|].
    exists TypeReject, rest. auto.
  - left. by rewrite (resumeRun_edit _ _ _ _ r) by auto.
Qed.

(** C2.  When [resumeRun] is called while a record [r] is displayed and a
    credential is available, every call of [stream.submit] it makes sees the
    cells already updated: nothing displayed, the marker null, and the
    ledger holding the id of [r] when [r] has one.  [setInterruptState(null)]
    is the first call of the trace, and for approve and reject a submit does
    follow it. *)
Theorem resumeRun_marks_before_submit token throws d ed h r :
  interruptState h = Some r -> truthy token = true ->
  let o := resumeRun token throws d ed h in
  (forall rv at_call, Submit rv at_call ∈ trace o ->
     seen_display at_call = None /\ seen_last at_call = None /\
     seen_ledger at_call = add_handled (interruptId r) (handledInterruptIds h) /\
     (forall i, interruptId r = Some i -> truthy (Some i) = true ->
                i ∈ seen_ledger at_call)) /\
  (exists rest, trace o = SetInterruptState None :: rest) /\
  (d <> edit -> exists rv at_call, Submit rv at_call ∈ trace o).
Proof.
  intros Hr Ht o.
  destruct (resumeRun_trace_shape token throws d ed h r Hr Ht)
    as [[-> Htr]|(e & rest & Hd & Htr & Hrest)]; fold o in Htr; rewrite Htr.
  - split; [|split; [by eexists|done]].
    intros rv a Hin. by apply list_elem_of_singleton in Hin.
  - split; [|split; [by eexists|]].
    + intros rv a Hin.
      assert (a = seen (marked r h)) as ->.
      { apply elem_of_cons in Hin as [Hin|Hin]; [done|].
        apply elem_of_cons in Hin as [Hin|Hin]; [by injection Hin|].
        destruct Hrest as [->| ->]; [by apply elem_of_nil in Hin|].
        by apply list_elem_of_singleton in Hin. }
      simpl. repeat split.
      intros i Hi Hti. apply elem_of_add_handled. left. by rewrite Hi.
    + intros _. eexists _, _. apply elem_of_cons. right.
      apply elem_of_cons. by left.
Qed.

Lemma resumeRun_marks_before_submit_witness :
  let h := hook (fst (run displayed_i1 initial)) in
  exists rv at_call,
    Submit rv at_call ∈ trace (resumeRun (Some "tok") false approve None h).
Proof.
  intros h.
  destruct (resumeRun_marks_before_submit (Some "tok") false approve None h
              (live_record closure_A (stream_of (Some interrupt_i1))
                 interrupt_i1))
    as (_ & _ & Hsub); [reflexivity|reflexivity|].
  by apply Hsub.
Defined.

(** X24.  The failure the [catch] block sees is a throw out of the call of
    [stream.submit].  If a record [r] that carries an [interruptId] [i] is
    displayed, a credential is available, and the submit made by
    [resumeRun] (decision approve or reject) throws, then [resumeRun]
    completes normally, [i] is not in the ledger afterwards, [r] is displayed
    again, the marker is [i], and calling [resumeRun] again submits the same
    resume value. *)
Theorem resumeRun_failure_rolls_back token d ed h r i :
  interruptState h = Some r -> truthy token = true -> d <> edit ->
  interruptId r = Some i -> truthy (Some i) = true ->
  let o := resumeRun token true d ed h in
  completion o = Normal tt /\
  (i ∉ handledInterruptIds (after o)) /\
  interruptState (after o) = Some r /\
  lastInterruptId (after o) = Some i /\
  submitted (trace o) <> [] /\
  submitted (trace (resumeRun token false d ed (after o))) =
    submitted (trace o).
Proof.
  intros Hr Ht Hd Hi Hti o. subst o.
  assert (exists e, d = approve /\ e = TypeApprove \/
                    d = reject /\ e = TypeReject) as [e He].
  { destruct d; [by exists TypeApprove; left|by exists TypeReject; right|done]. }
  rewrite (resumeRun_failed _ _ _ _ r e i) by done; simpl.
  split; [done|].
  split; [rewrite elem_of_set_delete; by intros [_ ?]|].
  do 3 (split; [done|]).
  by rewrite (resumeRun_submitted _ _ _ _ r e).
Qed.

Lemma resumeRun_failure_rolls_back_witness :
  let h := hook (fst (run displayed_i1 initial)) in
  let o := resumeRun (Some "tok") true reject None h in
  interruptState (after o) = interruptState h /\
  lastInterruptId (after o) = Some "i1".
Proof.
  intros h o.
  destruct (resumeRun_failure_rolls_back (Some "tok") reject None h
              (live_record closure_A (stream_of (Some interrupt_i1))
                 interrupt_i1) "i1")
    as (_ & _ & Hd & Hl & _); [reflexivity|reflexivity|discriminate
                               |reflexivity|reflexivity|].
  split; [exact Hd|exact Hl].
Defined.

(** The whole rollback sits under [if (interruptId)]: for a record without
    an [interruptId], after a submit that throws nothing is displayed,
    although the record was displayed before the call and the submit was
    made. *)
Lemma resumeRun_failure_without_id_not_restored :
  let h := hook (fst (run displayed_noid initial)) in
  let o := resumeRun (Some "tok") true reject None h in
  interruptState h =
    Some (live_record closure_A (stream_of (Some interrupt_noid))
            interrupt_noid) /\
  submitted (trace o) = [{| decisions := [TypeReject] |}] /\
  interruptState (after o) = None /\
  lastInterruptId (after o) = None.
Proof. vm_compute. repeat split. Qed.

(** C3, evaluated on the code.  The record of [i1] is displayed and
    rejected; [stream.submit] is not awaited and returns, and the resume
    then fails, which the hook learns through [onError].  Nothing is rolled
    back: nothing is displayed, the marker is null and [i1] is still in the
    ledger, so that the following render shows no record, a tick that
    reports [i1] again publishes nothing, and the callback of that render
    does nothing when called.  The interrupt cannot be resolved again. *)
Theorem failed_resume_is_not_rolled_back :
  let s := fst (run displayed_i1 initial) in
  let later := [StreamError;
                Render props_A (stream_of (Some interrupt_i1));
                Tick (stream_of (Some interrupt_i1))] in
  let s1 := fst (step (Resolve reject None false) s) in
  let s2 := fst (run later s1) in
  rendered s =
    Some (live_record closure_A (stream_of (Some interrupt_i1))
            interrupt_i1) /\
  submitted (snd (step (Resolve reject None false) s)) =
    [{| decisions := [TypeReject] |}] /\
  publishes (snd (run later s1)) = [] /\
  interruptState (hook s2) = None /\
  rendered s2 = None /\
  lastInterruptId (hook s2) = None /\
  set_has "i1" (handledInterruptIds (hook s2)) = true /\
  snd (step (Resolve reject None false) s2) = [].
Proof. vm_compute. repeat split. Qed.

(** C4, evaluated on the code: resolving the displayed interrupt [i1] with
    the edit decision and edited arguments marks [i1] as handled and clears
    the display, but no resume request is submitted at all. *)
Theorem resumeRun_edit_submits_nothing :
  let s := fst (run displayed_i1 initial) in
  let o := step (Resolve edit (Some (JObj [("query", JStr "edited")])) false) s in
  length (actionRequests_of
            (live_record closure_A (stream_of (Some interrupt_i1))
               interrupt_i1)) = 1 /\
  submitted (snd o) = [] /\
  interruptState (hook (fst o)) = None /\
  set_has "i1" (handledInterruptIds (hook (fst o))) = true.
Proof. vm_compute. repeat split. Qed.

(** Whatever the state, the edit decision never reaches [stream.submit]. *)
Lemma resumeRun_edit_no_submit token throws ed h :
  submitted (trace (resumeRun token throws edit ed h)) = [].
Proof.
  destruct (interruptState h) as [r|] eqn:Hr;
    [|by rewrite resumeRun_guard by auto].
  destruct (truthy token) eqn:Ht; [|by rewrite resumeRun_guard by auto].
  by rewrite (resumeRun_edit _ _ _ _ r).
Qed.

Lemma map_const_replicate {A B} (b : B) (l : list A) :
  map (fun _ => b) l = replicate (length l) b.
Proof. induction l as [|a l IH]; simpl; by rewrite ?IH. Qed.

(** C6.  If the displayed record's pending action holds the list [reqs] of
    action requests and a credential is available, then [resumeRun] with
    approve (respectively reject) submits exactly one resume value, whose
    [decisions] list has one approve (respectively reject) entry for each
    request of [reqs], position by position, hence [length reqs] identical
    entries. *)
Theorem resumeRun_uniform_decisions token throws ed h r reqs :
  interruptState h = Some r -> truthy token = true ->
  action_requests (payload_of (pendingAction r)) = Some reqs ->
  submitted (trace (resumeRun token throws approve ed h)) =
    [{| decisions := replicate (length reqs) TypeApprove |}] /\
  submitted (trace (resumeRun token throws reject ed h)) =
    [{| decisions := replicate (length reqs) TypeReject |}] /\
  (forall k e, e = TypeApprove \/ e = TypeReject ->
     is_Some (reqs !! k) <->
     replicate (length reqs) e !! k = Some e).
Proof.
  intros Hr Ht Hreqs.
  assert (Hu : forall e, uniform e r =
                         {| decisions := replicate (length reqs) e |}).
  { intros e. unfold uniform, actionRequests_of. rewrite Hreqs; simpl.
    by rewrite map_const_replicate. }
  assert (Hsub : forall d e,
    (d = approve /\ e = TypeApprove \/ d = reject /\ e = TypeReject) ->
    submitted (trace (resumeRun token throws d ed h)) = [uniform e r]).
  { intros d e He.
    destruct (resumeRun_trace_shape token throws d ed h r Hr Ht)
      as [[-> _]|(e' & rest & Hd & -> & Hrest)];
      [by destruct He as [[? _]|[? _]]|].
    assert (e' = e) as ->.
    { destruct He as [[-> ->]|[-> ->]], Hd as [[? ->]|[? ->]]; done. }
    by destruct Hrest as [-> | ->]. }
  rewrite <- !Hu. split; [apply Hsub; auto|]. split; [apply Hsub; auto|].
  intros k e _. rewrite lookup_replicate, lookup_lt_is_Some.
  split; [by intros ?|by intros [_ ?]].
Qed.

Lemma resumeRun_uniform_decisions_witness :
  submitted (trace (resumeRun (Some "tok") false approve None
                      (hook (fst (run displayed_i1 initial))))) =
    [{| decisions := [TypeApprove] |}].
Proof.
  apply (resumeRun_uniform_decisions (Some "tok") false None
           (hook (fst (run displayed_i1 initial)))
           (live_record closure_A (stream_of (Some interrupt_i1)) interrupt_i1)
           [sample_request]); reflexivity.
Defined.

(** ** The detector: theorems *)


Lemma publishes_app e1 e2 :
  publishes (e1 ++ e2) = publishes e1 ++ publishes e2.
Proof. apply omap_app. Qed.

Lemma clear_if_marked_publishes cl h :
  publishes (trace (clear_if_marked cl h)) = [] /\
  handledInterruptIds (after (clear_if_marked cl h)) = handledInterruptIds h.
Proof. unfold clear_if_marked. by destruct (negb _ && _). Qed.



Lemma props_step op s :
  props (fst (step op s)) =
    match op with Render p _ => Some p | _ => props s end.
Proof.
  destruct op as [p stream|stream|n q|d ed throws|]; simpl; try done.
  - rewrite render_eq; simpl.
    destruct (detector_deps_changed _ _); simpl; [|done].
    by destruct (completion _) as [[cl|]|].
  - by destruct (timer s).
  - by destruct (inflight s !! n).
Qed.

(** Only a render changes what the latest render saw. *)
Lemma rendered_step op s :
  rendered (fst (step op s)) =
    match op with Render _ _ => interruptState (hook s) | _ => rendered s end.
Proof.
  destruct op as [p stream|stream|n q|d ed throws|]; simpl; try done.
  - rewrite render_eq; simpl.
    destruct (detector_deps_changed _ _); simpl; [|done].
    by destruct (completion _) as [[cl|]|].
  - by destruct (timer s).
  - by destruct (inflight s !! n).
Qed.




Lemma unhandled_display_reachable ops :
  unhandled_display (hook (fst (run ops initial))).
Proof.
  assert (Hgen : forall s, unhandled_display (hook s) ->
                           unhandled_display (hook (fst (run ops s)))).
  { induction ops as [|op ops IH]; intros s Hs; simpl; [done|].
    pose proof (unhandled_display_moves _ _ _ _ _ (step_moves op s) Hs) as H1.
    destruct (step op s) as [s1 e1]; simpl in *.
    specialize (IH s1 H1). by destruct (run ops s1). }
  apply Hgen. by intros r i.
Qed.




(** C1, evaluated on the code.  In conversation A the interrupt [i1] has
    been approved, so its id is in the ledger; an interrupt without id is
    then reported and displayed.  A tick of the running detector whose live
    probe reports [i1] again takes the branch for a handled interrupt, and
    that branch does not clear the display: the record without id is still
    displayed after the tick, because the clear is guarded by a non-null
    marker and the marker of a record without id is null. *)
Theorem handled_tick_keeps_record_without_id :
  let s := fst (run (resolved_i1 ++
                     [Tick (stream_of (Some interrupt_noid))]) initial) in
  let s' := fst (step (Tick (stream_of (Some interrupt_i1))) s) in
  timer s = Some closure_A /\
  set_has "i1" (handledInterruptIds (hook s)) = true /\
  interruptState (hook s) =
    Some (live_record closure_A (stream_of (Some interrupt_noid))
            interrupt_noid) /\
  lastInterruptId (hook s) = None /\
  interruptState (hook s') = interruptState (hook s) /\
  snd (step (Tick (stream_of (Some interrupt_i1))) s) = [].
Proof. vm_compute. repeat split. Qed.




(** A tick leaves the ledger and the [cancelled] cells alone. *)
Lemma tick_result_frame h h' evs :
  tick_result h h' evs ->
  handledInterruptIds h' = handledInterruptIds h /\
  cancelled h' = cancelled h.
Proof. by destruct 1. Qed.





Lemma truthy_values_Some st v :
  truthy_values st = Some v -> ts_values st = Some v /\ json_truthy v = true.
Proof.
  unfold truthy_values. destruct (ts_values st) as [j|]; [|done].
  destruct (json_truthy j) eqn:Hj; [|done]. by intros [= <-].
Qed.

(** X23.  On a tick whose live probe reports nothing: (a) a
    record is published only if the query resolved with a state whose
    [values] are present and truthy; (b) if the query resolved with a state
    that has no truthy [values], the tick does exactly what it does when that
    state lists no interrupt at all: it publishes nothing, and when it
    belongs to the running detector and the marker is not null it clears the
    display and the marker. *)
Theorem fallback_publishes_only_with_values cl stream q h :
  s_interrupt stream = None ->
  let o := checkInterrupts cl stream q h in
  (forall r, r ∈ publishes (trace o) ->
     exists st v, q = Resolved st /\ ts_values st = Some v /\
                  json_truthy v = true) /\
  (forall st, q = Resolved st -> truthy_values st = None ->
     o = checkInterrupts cl stream (Resolved (without_interrupts st)) h /\
     publishes (trace o) = [] /\
     (live cl h -> lastInterruptId h <> None ->
      interruptState (after o) = None /\ lastInterruptId (after o) = None /\
      trace o = [SetInterruptState None])).
Proof.
  intros Hs o. split.
  - intros r Hr. destruct (candidate cl stream q) as [[itr r']|] eqn:Hc.
    + unfold candidate in Hc. rewrite Hs in Hc.
      destruct q as [st|]; [|done].
      destruct (allInterrupts st) as [|i l]; [done|].
      destruct (truthy_values st) as [v|] eqn:Hv; [|done].
      apply truthy_values_Some in Hv as [Hv Hj]. eauto.
    + subst o. rewrite checkInterrupts_no_candidate in Hr by done.
      destruct (clear_if_marked_publishes cl h) as [Hp _].
      rewrite Hp in Hr. by apply elem_of_nil in Hr.
  - intros st -> Hv.
    assert (Ho : o = clear_if_marked cl h).
    { subst o. apply checkInterrupts_no_candidate.
      unfold candidate. rewrite Hs, Hv. by destruct (allInterrupts st). }
    split; [|split].
    + rewrite Ho. symmetry. apply checkInterrupts_no_candidate.
      unfold candidate. by rewrite Hs.
    + rewrite Ho. apply clear_if_marked_publishes.
    + intros Hlive Hl. rewrite Ho, clear_if_marked_live by done.
      by destruct (lastInterruptId h).
Qed.

Lemma fallback_publishes_only_with_values_witness :
  publishes (trace (checkInterrupts closure_A (stream_of None)
                      (Resolved state_without_values)
                      (hook (fst (run displayed_i1 initial))))) = [].
Proof.
  destruct (fallback_publishes_only_with_values closure_A (stream_of None)
              (Resolved state_without_values)
              (hook (fst (run displayed_i1 initial))) eq_refl)
    as [_ Hb].
  destruct (Hb state_without_values eq_refl eq_refl) as (_ & Hp & _).
  exact Hp.
Defined.

(** C10, evaluated on the code.  A record without id is displayed in
    conversation A (its marker is null); on the next tick the live probe is
    silent and the fallback query returns a state that lists an interrupt
    but has no [values].  The tick publishes nothing, but it does not clear
    the display either: the clear of lines 405-409 is guarded by a non-null
    marker, so the record without id is still displayed afterwards. *)
Theorem fallback_without_values_keeps_record_without_id :
  let s := fst (run (displayed_noid ++ [Tick (stream_of None)]) initial) in
  let s' := fst (step (QueryReturns 0 (Resolved state_without_values)) s) in
  timer s = Some closure_A /\
  inflight s = [closure_A] /\
  interruptState (hook s) =
    Some (live_record closure_A (stream_of (Some interrupt_noid))
            interrupt_noid) /\
  lastInterruptId (hook s) = None /\
  interruptState (hook s') = interruptState (hook s) /\
  snd (step (QueryReturns 0 (Resolved state_without_values)) s) = [].
Proof. vm_compute. repeat split. Qed.

(** ** The [cancelled] cells: invariants *)

Lemma cells_ok_initial : cells_ok initial.
Proof.
  split; [done|]. intros cl Hin. by apply elem_of_nil in Hin.
Qed.

Lemma start_tick_frame cl stream s :
  let s' := fst (start_tick cl stream s) in
  cancelled (hook s') = cancelled (hook s) /\
  timer s' = timer s /\
  (inflight s' = inflight s \/ inflight s' = inflight s ++ [cl]).
Proof.
  unfold start_tick; simpl.
  destruct (checkInterrupts_sync_result cl stream (hook s)) as [[st Hc] Hr].
  apply tick_result_frame in Hr as [_ Hcells].
  split; [done|]. split; [done|].
  rewrite Hc. destruct st; auto.
Qed.

Lemma resumeRun_closure_cells c token throws d ed h :
  cancelled (after (resumeRun_closure c token throws d ed h)) = cancelled h.
Proof.
  by destruct (resumeRun_closure_cases c token throws d ed h)
    as [->|(r & _ & _ & [(sub & -> & _)|(i & rv & _ & _ & _ & _ & ->)])].
Qed.

Lemma resumeRun_cells token throws d ed h :
  cancelled (after (resumeRun token throws d ed h)) = cancelled h.
Proof. apply resumeRun_closure_cells. Qed.

Lemma cancelled_after_reset p s :
  cancelled (after_reset p s) = cells_after_cleanup p s.
Proof.
  unfold after_reset, after_cleanup, cells_after_cleanup.
  destruct (thread_changed _ _), (detector_deps_changed _ _); simpl;
    try done; by destruct (timer s).
Qed.

(** What a commit does to the cells, the interval and the ticks in
    flight. *)
Lemma render_cells p stream s :
  let s' := fst (render p stream s) in
  if detector_deps_changed (props s) p then
    (detector_off p = true /\
     cancelled (hook s') = cells_after_cleanup p s /\
     timer s' = None /\ inflight s' = inflight s) \/
    (detector_off p = false /\
     exists cl,
       c_cancelled cl = length (cells_after_cleanup p s) /\
       cancelled (hook s') = cells_after_cleanup p s ++ [false] /\
       timer s' = Some cl /\
       (inflight s' = inflight s \/ inflight s' = inflight s ++ [cl]))
  else
    cancelled (hook s') = cancelled (hook s) /\
    timer s' = timer s /\ inflight s' = inflight s.
Proof.
  simpl. rewrite render_eq; simpl.
  destruct (detector_deps_changed (props s) p) eqn:Hd; simpl.
  - destruct (detector_off p) eqn:Hoff.
    + left. rewrite detector_effect_off by done; simpl.
      by rewrite cancelled_after_reset.
    + right. split; [done|].
      destruct (detector_effect_on p (after_reset p s) Hoff)
        as (t & a & _ & _ & ->); simpl.
      rewrite cancelled_after_reset.
      set (cl := {| c_threadId := t; c_accessToken := a;
                    c_cancelled := length (cells_after_cleanup p s) |}).
      exists cl. split; [done|].
      pose proof (start_tick_frame cl stream
        {| hook := with_cells (cells_after_cleanup p s ++ [false])
                     (after_reset p s);
           props := Some p; timer := Some cl; inflight := inflight s;
           rendered := interruptState (hook s) |})
        as (Hc & Ht & Hi); simpl in *.
      split; [exact Hc|]. split; [done|exact Hi].
  - rewrite cancelled_after_reset. unfold cells_after_cleanup.
    by rewrite Hd.
Qed.

Lemma lookup_insert_true (l : list bool) (k j : nat) :
  l !! j = Some true -> <[k := true]> l !! j = Some true.
Proof.
  intros Hj. destruct (decide (k = j)) as [->|Hne].
  - rewrite list_lookup_insert_eq; [done|]. by eapply lookup_lt_Some.
  - by rewrite list_lookup_insert_ne.
Qed.

Lemma cells_after_cleanup_torn p s j :
  cancelled (hook s) !! j = Some true ->
  cells_after_cleanup p s !! j = Some true.
Proof.
  intros Hj. unfold cells_after_cleanup.
  destruct (detector_deps_changed _ _); [|done].
  destruct (timer s); [|done]. by apply lookup_insert_true.
Qed.

(** A torn-down cell stays torn down. *)
Lemma torn_down_step op s j :
  cancelled (hook s) !! j = Some true ->
  cancelled (hook (fst (step op s))) !! j = Some true.
Proof.
  intros Hj. destruct op as [p stream|stream|n q|d ed throws|]; simpl.
  - pose proof (render_cells p stream s) as Hr; simpl in Hr.
    pose proof (cells_after_cleanup_torn p s j Hj) as Hj'.
    destruct (detector_deps_changed (props s) p).
    + destruct Hr as [(_ & -> & _)|(_ & cl & _ & -> & _)]; [done|].
      by apply lookup_app_l_Some.
    + by destruct Hr as (-> & _).
  - destruct (timer s) as [cl|]; [|done].
    by destruct (start_tick_frame cl stream s) as (-> & _).
  - destruct (inflight s !! n) as [cl|]; simpl; [|done].
    destruct (checkInterrupts_resume_result cl q (hook s)) as [_ Hr].
    by apply tick_result_frame in Hr as [_ ->].
  - by rewrite resumeRun_closure_cells.
  - done.
Qed.

Lemma torn_down_run ops s j :
  cancelled (hook s) !! j = Some true ->
  cancelled (hook (fst (run ops s))) !! j = Some true.
Proof.
  revert s. induction ops as [|op ops IH]; intros s Hj; simpl; [done|].
  pose proof (torn_down_step op s j Hj) as H1.
  destruct (step op s) as [s1 e1]; simpl in *.
  specialize (IH s1 H1). by destruct (run ops s1).
Qed.

Lemma cells_ok_step op s : cells_ok s -> cells_ok (fst (step op s)).
Proof.
  intros Hok. pose proof Hok as [Htimer Hfl].
  destruct op as [p stream|stream|n q|d ed throws|]; simpl.
  - pose proof (render_cells p stream s) as Hr; simpl in Hr.
    destruct (detector_deps_changed (props s) p) eqn:Hd.
    + assert (Hold : forall cl, cl ∈ inflight s ->
                cells_after_cleanup p s !! c_cancelled cl = Some true).
      { intros cl Hin. destruct (Hfl cl Hin) as [Ht|Ht].
        - by apply cells_after_cleanup_torn.
        - unfold cells_after_cleanup. rewrite Hd, Ht.
          apply list_lookup_insert_eq. eapply lookup_lt_Some.
          by apply Htimer. }
      destruct Hr as [(_ & Hc & Ht & Hi)|(_ & cl & Hk & Hc & Ht & Hi)].
      * split; [by rewrite Ht|]. rewrite Hi. intros cl Hin. left.
        unfold torn_down. rewrite Hc. by apply Hold.
      * assert (Hnew : live cl (hook (fst (render p stream s)))).
        { unfold live. rewrite Hc, Hk.
          rewrite lookup_app_r by done. by rewrite Nat.sub_diag. }
        split; [rewrite Ht; by intros ? [= <-]|].
        intros cl' Hin.
        assert (cl' ∈ inflight s \/ cl' = cl) as [Hin'| ->].
        { destruct Hi as [Hi|Hi]; rewrite Hi in Hin; [by left|].
          apply elem_of_app in Hin as [?|Hin]; [by left|].
          right. by apply list_elem_of_singleton in Hin. }
        -- left. unfold torn_down. rewrite Hc.
           apply lookup_app_l_Some. by apply Hold.
        -- by right.
    + destruct Hr as (Hc & Ht & Hi). unfold cells_ok, live, torn_down.
      rewrite Hc, Ht, Hi. by split.
  - destruct (timer s) as [cl|] eqn:Ht; [|exact Hok].
    destruct (start_tick_frame cl stream s) as (Hc & Ht' & Hi).
    unfold cells_ok, live, torn_down. rewrite Hc, Ht', Ht.
    split; [intros ? [= <-]; by apply Htimer|].
    intros cl' Hin.
    assert (cl' ∈ inflight s \/ cl' = cl) as [Hin'| ->].
    { destruct Hi as [Hi|Hi]; rewrite Hi in Hin; [by left|].
      apply elem_of_app in Hin as [?|Hin]; [by left|].
      right. by apply list_elem_of_singleton in Hin. }
    + destruct (Hfl cl' Hin'); [by left|right; congruence].
    + by right.
  - destruct (inflight s !! n) as [cl|] eqn:Hn; simpl;
      [|exact Hok].
    destruct (checkInterrupts_resume_result cl q (hook s)) as [_ Hr].
    apply tick_result_frame in Hr as [_ Hc].
    unfold cells_ok, live, torn_down. simpl. rewrite Hc. split; [done|].
    intros cl' Hin. apply Hfl. by eapply list_subseteq_delete.
  - unfold cells_ok, live, torn_down. simpl.
    rewrite resumeRun_closure_cells. by split.
  - exact Hok.
Qed.

Lemma cells_ok_run ops s : cells_ok s -> cells_ok (fst (run ops s)).
Proof.
  revert s. induction ops as [|op ops IH]; intros s Hs; simpl; [done|].
  pose proof (cells_ok_step op s Hs) as H1.
  destruct (step op s) as [s1 e1]; simpl in *.
  specialize (IH s1 H1). by destruct (run ops s1).
Qed.

(** A commit that changes a dependency of the detector effect tears down
    every tick that was in flight. *)
Lemma render_tears_down p stream s cl :
  cells_ok s -> detector_deps_changed (props s) p = true ->
  cl ∈ inflight s ->
  cancelled (hook (fst (render p stream s))) !! c_cancelled cl = Some true.
Proof.
  intros [Htimer Hfl] Hd Hin.
  pose proof (render_cells p stream s) as Hr; simpl in Hr. rewrite Hd in Hr.
  assert (Hold : cells_after_cleanup p s !! c_cancelled cl = Some true).
  { destruct (Hfl cl Hin) as [Ht|Ht].
    - by apply cells_after_cleanup_torn.
    - unfold cells_after_cleanup. rewrite Hd, Ht.
      apply list_lookup_insert_eq. eapply lookup_lt_Some. by apply Htimer. }
  destruct Hr as [(_ & -> & _)|(_ & cl' & _ & -> & _)]; [done|].
  by apply lookup_app_l_Some.
Qed.

(** ** The conversation lifecycle: theorems *)

(** C7.  Take a tick that is in flight in a reachable state, and a commit
    that changes a dependency of the detector effect (the conversation, the
    credential or the feature flag), which runs the effect's cleanup.
    Whatever happens afterwards, when the query of that tick (or of any tick
    of the same effect run) settles, with whatever outcome, the cells are
    left exactly as they were and no call is made: nothing is published and
    the marker is not touched. *)
Theorem torn_down_tick_is_discarded ops0 p stream ops1 cl n cl' q :
  let s := fst (run ops0 initial) in
  cl ∈ inflight s ->
  detector_deps_changed (props s) p = true ->
  let s2 := fst (run (Render p stream :: ops1) s) in
  inflight s2 !! n = Some cl' -> c_cancelled cl' = c_cancelled cl ->
  hook (fst (step (QueryReturns n q) s2)) = hook s2 /\
  snd (step (QueryReturns n q) s2) = [].
Proof.
  intros s Hin Hd s2 Hn Hk.
  assert (Htorn : torn_down cl' (hook s2)).
  { unfold torn_down. rewrite Hk. subst s2. simpl.
    pose proof (render_tears_down p stream s cl
                  (cells_ok_run ops0 initial cells_ok_initial) Hd Hin) as Ht.
    destruct (render p stream s) as [s1 e1]; simpl in *.
    pose proof (torn_down_run ops1 s1 _ Ht) as Ht2.
    by destruct (run ops1 s1). }
  simpl. rewrite Hn; simpl.
  by rewrite checkInterrupts_resume_torn_down.
Qed.

Lemma torn_down_tick_is_discarded_witness :
  let s2 := fst (run (Render props_B (stream_of None) :: [])
                   (fst (run awaiting_A initial))) in
  inflight s2 !! 0 = Some closure_A /\
  hook (fst (step (QueryReturns 0 (Resolved state_i1)) s2)) = hook s2 /\
  snd (step (QueryReturns 0 (Resolved state_i1)) s2) = [].
Proof.
  intros s2. split; [reflexivity|].
  apply (torn_down_tick_is_discarded awaiting_A props_B (stream_of None) []
           closure_A 0 closure_A (Resolved state_i1)).
  - apply list_elem_of_singleton. reflexivity.
  - reflexivity.
  - reflexivity.
  - reflexivity.
Defined.

(** The same query outcome is published when the conversation has not
    changed, so the theorem above is about the cleanup and nothing else. *)
Example live_tick_is_published :
  let s := fst (run awaiting_A initial) in
  publishes (snd (step (QueryReturns 0 (Resolved state_i1)) s)) =
    [fallback_record closure_A (JObj []) interrupt_i1].
Proof. vm_compute. reflexivity. Qed.

Lemma thread_changed_deps old p :
  thread_changed old p = true -> detector_deps_changed old p = true.
Proof.
  unfold thread_changed, detector_deps_changed. destruct old as [q|]; [|done].
  intros Ht. apply negb_true_iff in Ht. rewrite Ht.
  by rewrite andb_false_r.
Qed.






(** * More of the hook: theorems *)

(** ** What a tick can leave on display *)

Lemma clear_if_marked_display cl h :
  let d := interruptState (after (clear_if_marked cl h)) in
  d = interruptState h \/ d = None.
Proof.
  simpl. unfold clear_if_marked. destruct (negb _ && _); simpl; auto.
Qed.

Lemma consider_display cl itr r h :
  let d := interruptState (after (consider cl itr r h)) in
  d = interruptState h \/ d = None \/
  (d = Some r /\ is_cancelled (c_cancelled cl) h = false).
Proof.
  simpl. unfold consider.
  destruct (handled (i_id itr) h).
  - destruct (clear_if_marked_display cl h); auto.
  - destruct (strict_eq _ _); simpl; [auto|].
    unfold publish. destruct (is_cancelled _ _) eqn:Hc; simpl; auto.
Qed.

Lemma checkInterrupts_sync_display cl stream h :
  let d := interruptState (after (checkInterrupts_sync cl stream h)) in
  d = interruptState h \/ d = None \/
  (exists r, built_by cl r /\ d = Some r /\
             is_cancelled (c_cancelled cl) h = false).
Proof.
  simpl. rewrite checkInterrupts_sync_eq.
  destruct (s_interrupt stream) as [itr|]; simpl; [|auto].
  destruct (consider_display cl itr (live_record cl stream itr) h)
    as [?|[?|[? ?]]]; auto.
  right; right. eexists. split; [|eauto]. left. eauto.
Qed.

Lemma checkInterrupts_resume_display cl q h :
  let d := interruptState (after (checkInterrupts_resume cl q h)) in
  d = interruptState h \/ d = None \/
  (exists r, built_by cl r /\ d = Some r /\
             is_cancelled (c_cancelled cl) h = false).
Proof.
  simpl. rewrite checkInterrupts_resume_eq.
  destruct q as [st|];
    [|destruct (clear_if_marked_display cl h); auto].
  unfold fallback_branch.
  destruct (allInterrupts st) as [|itr l];
    [destruct (clear_if_marked_display cl h); auto|].
  destruct (negb _); [|destruct (clear_if_marked_display cl h); auto].
  destruct (truthy_values st) as [v|];
    [|destruct (clear_if_marked_display cl h); auto].
  destruct (consider_display cl itr (fallback_record cl v itr) h)
    as [?|[?|[? ?]]]; auto.
  right; right. eexists. split; [|eauto]. right. eauto.
Qed.

Lemma built_by_fields cl r :
  built_by cl r ->
  threadId r = c_threadId cl /\ nodeName r = nodeName_of (pendingAction r).
Proof. by intros [(stream & itr & ->)|(v & itr & ->)]. Qed.

Lemma resumeRun_closure_display c token throws d ed h :
  let d' := interruptState (after (resumeRun_closure c token throws d ed h)) in
  d' = interruptState h \/ d' = None \/ (d' = c /\ is_Some c).
Proof.
  simpl.
  destruct (resumeRun_closure_cases c token throws d ed h)
    as [->|(r & -> & _ & [(sub & -> & _)|(i & rv & _ & _ & _ & _ & ->)])];
    simpl; auto.
Qed.

Lemma thread_unchanged old p :
  thread_changed old p = false ->
  exists q, old = Some q /\ p_threadId q = p_threadId p.
Proof.
  unfold thread_changed. destruct old as [q|]; [|done].
  intros Hb. apply negb_false_iff, bool_decide_eq_true in Hb. eauto.
Qed.

Lemma interruptState_after_reset p s :
  interruptState (after_reset p s) =
    if thread_changed (props s) p then None else interruptState (hook s).
Proof.
  unfold after_reset, after_cleanup.
  destruct (thread_changed _ _); [done|].
  destruct (detector_deps_changed _ _); [|done]. by destruct (timer s).
Qed.

Lemma is_cancelled_with_cells_new c h :
  is_cancelled (length c) (with_cells (c ++ [false]) h) = false.
Proof.
  unfold is_cancelled; simpl. rewrite lookup_app_r by done.
  by rewrite Nat.sub_diag.
Qed.

(** The display after a commit: what was there (only if the conversation
    is the same), nothing, or a record built by the new effect run. *)
Lemma render_display p stream s :
  let s' := fst (render p stream s) in
  let d := interruptState (hook s') in
  (d = interruptState (hook s) /\ thread_changed (props s) p = false) \/
  d = None \/
  (exists cl r, timer s' = Some cl /\ built_by cl r /\ d = Some r).
Proof.
  simpl. rewrite render_eq; simpl.
  pose proof (interruptState_after_reset p s) as Hd.
  destruct (detector_deps_changed (props s) p) eqn:Hdeps; simpl.
  - destruct (detector_off p) eqn:Hoff.
    + rewrite detector_effect_off by done; simpl. auto.
    + destruct (detector_effect_on p (after_reset p s) Hoff)
        as (t & a & _ & _ & ->); simpl.
      set (cl := {| c_threadId := t; c_accessToken := a;
                    c_cancelled := length (cancelled (after_reset p s)) |}).
      set (h0 := with_cells (cancelled (after_reset p s) ++ [false])
                   (after_reset p s)).
      unfold start_tick; simpl.
      destruct (checkInterrupts_sync_display cl stream h0)
        as [H1|[H1|(r & Hb & H1 & _)]]; simpl in H1; rewrite H1.
      * subst h0; simpl. rewrite Hd.
        destruct (thread_changed (props s) p); auto.
      * auto.
      * right; right. by exists cl, r.
  - rewrite Hd. destruct (thread_changed (props s) p); auto.
Qed.

Lemma render_timer_thread p stream s cl :
  (forall cl0, timer s = Some cl0 -> current_thread s = Some (c_threadId cl0)) ->
  timer (fst (render p stream s)) = Some cl ->
  p_threadId p = Some (c_threadId cl).
Proof.
  intros Hold. rewrite render_eq; simpl.
  destruct (detector_deps_changed (props s) p) eqn:Hdeps; simpl.
  - destruct (detector_off p) eqn:Hoff.
    + by rewrite detector_effect_off by done.
    + destruct (detector_effect_on p (after_reset p s) Hoff)
        as (t & a & Ht & _ & ->); simpl.
      unfold start_tick; simpl. by intros [= <-].
  - intros Ht. specialize (Hold cl Ht). unfold current_thread in Hold.
    assert (thread_changed (props s) p = false) as Hth.
    { destruct (thread_changed (props s) p) eqn:E; [|done].
      by rewrite (thread_changed_deps _ _ E) in Hdeps. }
    apply thread_unchanged in Hth as (q & Hq & Hqp).
    rewrite Hq in Hold; simpl in Hold. congruence.
Qed.

Lemma display_bound_step op s :
  display_bound s -> display_bound (fst (step op s)).
Proof.
  intros Hbound. pose proof Hbound as [Htimer Hdisp].
  split.
  - (* the interval *)
    destruct op as [p stream|stream|n q|d ed throws|].
    + intros cl Hcl. unfold current_thread. rewrite props_step. simpl in Hcl.
      by apply (render_timer_thread p stream s cl).
    + simpl. destruct (timer s) as [cl|] eqn:Ht; [|exact (proj1 Hbound)].
      destruct (start_tick_frame cl stream s) as (_ & Ht' & _).
      intros cl'. rewrite Ht'. unfold current_thread. simpl.
      apply (proj1 Hbound).
    + simpl. destruct (inflight s !! n); exact Htimer.
    + exact Htimer.
    + exact Htimer.
  - (* the records *)
    intros r. rewrite rendered_step.
    assert (Hcell : interruptState (hook (fst (step op s))) = Some r ->
                    nodeName r = nodeName_of (pendingAction r)).
    { destruct op as [p stream|stream|n q|d ed throws|]; simpl.
      - destruct (render_display p stream s)
          as [[H1 _]|[H1|(cl & r' & _ & Hb & H1)]]; simpl in H1;
          rewrite H1; [by auto|done|].
        intros [= <-]. by destruct (built_by_fields _ _ Hb).
      - destruct (timer s) as [cl|]; [|by auto].
        unfold start_tick; simpl.
        destruct (checkInterrupts_sync_display cl stream (hook s))
          as [H1|[H1|(r' & Hb & H1 & _)]]; simpl in H1; rewrite H1;
          [by auto|done|].
        intros [= <-]. by destruct (built_by_fields _ _ Hb).
      - destruct (inflight s !! n) as [cl|]; [|by auto]. simpl.
        destruct (checkInterrupts_resume_display cl q (hook s))
          as [H1|[H1|(r' & Hb & H1 & _)]]; simpl in H1; rewrite H1;
          [by auto|done|].
        intros [= <-]. by destruct (built_by_fields _ _ Hb).
      - destruct (resumeRun_closure_display (rendered s)
                    (props s ≫= p_accessToken) throws d ed (hook s))
          as [H1|[H1|[H1 _]]]; simpl in H1; rewrite H1; [by auto|done|by auto].
      - by auto. }
    intros [Hr|Hr]; [by apply Hcell|].
    destruct op; auto.
Qed.

Lemma display_bound_run ops s :
  display_bound s -> display_bound (fst (run ops s)).
Proof.
  revert s. induction ops as [|op ops IH]; intros s Hd; simpl; [done|].
  pose proof (display_bound_step op s Hd) as Hd1.
  destruct (step op s) as [s1 e1]; simpl in *.
  specialize (IH s1 Hd1). by destruct (run ops s1).
Qed.

Lemma display_bound_initial : display_bound initial.
Proof. split; [done|]. by intros r [?|?]. Qed.

Lemma consider_publishes_thread cl itr r h r' :
  r' ∈ publishes (trace (consider cl itr r h)) ->
  r' = r /\ is_cancelled (c_cancelled cl) h = false.
Proof.
  unfold consider. destruct (handled (i_id itr) h).
  - destruct (clear_if_marked_publishes cl h) as [-> _].
    intros Hin. by apply elem_of_nil in Hin.
  - destruct (strict_eq _ _); simpl;
      [intros Hin; by apply elem_of_nil in Hin|].
    unfold publish. destruct (is_cancelled _ _); simpl.
    + intros Hin. by apply elem_of_nil in Hin.
    + intros Hin. by apply list_elem_of_singleton in Hin as ->.
Qed.

(** A record published by a part of a tick carries the conversation of the
    effect run, and that run has not been cleaned up. *)
Lemma checkInterrupts_sync_publishes cl stream h r :
  r ∈ publishes (trace (checkInterrupts_sync cl stream h)) ->
  threadId r = c_threadId cl /\ is_cancelled (c_cancelled cl) h = false.
Proof.
  rewrite checkInterrupts_sync_eq.
  destruct (s_interrupt stream) as [itr|]; simpl.
  - by intros [-> ?]%consider_publishes_thread.
  - intros Hin. by apply elem_of_nil in Hin.
Qed.

Lemma checkInterrupts_resume_publishes cl q h r :
  r ∈ publishes (trace (checkInterrupts_resume cl q h)) ->
  threadId r = c_threadId cl /\ is_cancelled (c_cancelled cl) h = false.
Proof.
  rewrite checkInterrupts_resume_eq.
  assert (Hclear : r ∈ publishes (trace (clear_if_marked cl h)) -> False).
  { destruct (clear_if_marked_publishes cl h) as [-> _].
    intros Hin. by apply elem_of_nil in Hin. }
  destruct q as [st|]; [|by intros ?%Hclear].
  unfold fallback_branch.
  destruct (allInterrupts st) as [|itr l]; [by intros ?%Hclear|].
  destruct (negb _); [|by intros ?%Hclear].
  destruct (truthy_values st) as [v|]; [|by intros ?%Hclear].
  by intros [-> ?]%consider_publishes_thread.
Qed.

Lemma render_publishes p stream s r :
  r ∈ publishes (snd (render p stream s)) ->
  p_threadId p = Some (threadId r).
Proof.
  rewrite render_eq; simpl.
  assert (Hevs1 : forall evs,
            r ∈ publishes ((if thread_changed (props s) p
                            then [SetInterruptState None] else []) ++ evs) ->
            r ∈ publishes evs).
  { intros evs. rewrite publishes_app.
    destruct (thread_changed _ _); simpl; [done|done]. }
  destruct (detector_deps_changed (props s) p); simpl.
  - destruct (detector_off p) eqn:Hoff.
    + rewrite detector_effect_off by done; simpl.
      intros Hin%Hevs1. simpl in Hin. by apply elem_of_nil in Hin.
    + destruct (detector_effect_on p (after_reset p s) Hoff)
        as (t & a & Ht & _ & ->); simpl.
      intros Hin%Hevs1. unfold start_tick in Hin; simpl in Hin.
      apply checkInterrupts_sync_publishes in Hin as [-> _]. by rewrite Ht.
  - rewrite <- (app_nil_r (if thread_changed _ _ then _ else _)).
    intros Hin%Hevs1. by apply elem_of_nil in Hin.
Qed.

(** X1. Every record the detector publishes is for the conversation the
    component is mounted on at that moment: after a commit, a firing of the
    interval or the return of a query that calls [setInterruptState] with a
    record, the [threadId] of that record is the current [threadId] prop. *)
Theorem published_record_is_for_current_conversation ops op r :
  let s := fst (run ops initial) in
  (forall d ed throws, op <> Resolve d ed throws) ->
  r ∈ publishes (snd (step op s)) ->
  current_thread (fst (step op s)) = Some (threadId r).
Proof.
  intros s Hop Hin.
  pose proof (cells_ok_run ops initial cells_ok_initial) as [Hlive Hfl].
  pose proof (display_bound_run ops initial display_bound_initial)
    as [Htimer _].
  fold s in Hlive, Hfl, Htimer.
  unfold current_thread. rewrite props_step.
  destruct op as [p stream|stream|n q|d ed throws|]; simpl in Hin.
  - by apply (render_publishes p stream s).
  - destruct (timer s) as [cl|] eqn:Ht;
      [|by apply elem_of_nil in Hin].
    unfold start_tick in Hin; simpl in Hin.
    apply checkInterrupts_sync_publishes in Hin as [-> _].
    by apply Htimer.
  - destruct (inflight s !! n) as [cl|] eqn:Hn;
      [|by apply elem_of_nil in Hin].
    simpl in Hin.
    apply checkInterrupts_resume_publishes in Hin as [-> Hc].
    apply Htimer.
    destruct (Hfl cl) as [Htd|Ht]; [by eapply list_elem_of_lookup_2| |done].
    by rewrite (torn_down_cancelled _ _ Htd) in Hc.
  - by destruct (Hop d ed throws).
  - by apply elem_of_nil in Hin.
Qed.

Lemma published_record_is_for_current_conversation_witness :
  current_thread
    (fst (step (QueryReturns 0 (Resolved state_i1))
            (fst (run awaiting_A initial)))) = Some "A".
Proof.
  apply (published_record_is_for_current_conversation awaiting_A
           (QueryReturns 0 (Resolved state_i1))
           (fallback_record closure_A (JObj []) interrupt_i1)).
  - intros d ed throws Heq. discriminate Heq.
  - vm_compute. constructor.
Defined.

Lemma or_else_default (y : option string) (d : string) :
  d <> "" ->
  match or_else y (Some d) with Some s => s | None => d end <> "".
Proof.
  intros Hd. unfold or_else. destruct (truthy y) eqn:Hy; [|done].
  by destruct y as [[|c s]|].
Qed.

Lemma nodeName_of_nonempty pa : nodeName_of pa <> "".
Proof. unfold nodeName_of. by apply or_else_default. Qed.

Lemma consider_publishes cl itr r h r' :
  r' ∈ publishes (trace (consider cl itr r h)) ->
  r' = r /\ handled (i_id itr) h = false /\
  is_cancelled (c_cancelled cl) h = false /\
  after (consider cl itr r h) = showing r h.
Proof.
  destruct (handled (i_id itr) h) eqn:Hh.
  - rewrite consider_handled by done.
    destruct (clear_if_marked_publishes cl h) as [-> _].
    intros Hin. by apply elem_of_nil in Hin.
  - rewrite consider_unhandled by done.
    destruct (strict_eq _ _); simpl;
      [intros Hin; by apply elem_of_nil in Hin|].
    unfold publish. destruct (is_cancelled _ _); simpl.
    + intros Hin. by apply elem_of_nil in Hin.
    + intros Hin. by apply list_elem_of_singleton in Hin as ->.
Qed.

(** X2. Every record a tick publishes is the normalisation of the interrupt
    the tick looked at: same id, the interrupt's value as pending action,
    the conversation of the effect run, a name that is never empty, and on
    the fallback channel the run id "unknown" and the queried values as
    state. It is published only by a tick that has not been torn down, for
    an id that is not handled, and it is what is displayed once the tick is
    over. *)
Theorem published_record_is_normalised cl stream q h r :
  r ∈ publishes (trace (checkInterrupts cl stream q h)) ->
  exists itr,
    reported stream q = Some itr /\
    interruptId r = i_id itr /\
    pendingAction r = interruptValue itr /\
    threadId r = c_threadId cl /\
    nodeName r = nodeName_of (interruptValue itr) /\ nodeName r <> "" /\
    (s_interrupt stream = None ->
       runId r = "unknown" /\
       exists st, q = Resolved st /\ ts_values st = Some (state r)) /\
    handled (i_id itr) h = false /\
    is_cancelled (c_cancelled cl) h = false /\
    interruptState (after (checkInterrupts cl stream q h)) = Some r.
Proof.
  rewrite checkInterrupts_eq. unfold reported.
  destruct (s_interrupt stream) as [itr|].
  - intros Hin. apply consider_publishes in Hin as (-> & Hh & Hc & ->).
    exists itr. repeat split; try done. apply nodeName_of_nonempty.
  - rewrite checkInterrupts_resume_eq. destruct q as [st|].
    + unfold fallback_branch.
      destruct (allInterrupts st) as [|itr l] eqn:Ha.
      { destruct (clear_if_marked_publishes cl h) as [-> _].
        intros Hin. by apply elem_of_nil in Hin. }
      destruct (negb _).
      2: { destruct (clear_if_marked_publishes cl h) as [-> _].
           intros Hin. by apply elem_of_nil in Hin. }
      destruct (truthy_values st) as [v|] eqn:Hv.
      2: { destruct (clear_if_marked_publishes cl h) as [-> _].
           intros Hin. by apply elem_of_nil in Hin. }
      intros Hin. apply consider_publishes in Hin as (-> & Hh & Hc & ->).
      apply truthy_values_Some in Hv as [Hv _].
      exists itr. repeat split; try done; [apply nodeName_of_nonempty|].
      by exists st.
    + destruct (clear_if_marked_publishes cl h) as [-> _].
      intros Hin. by apply elem_of_nil in Hin.
Qed.

Lemma published_record_is_normalised_witness :
  exists itr,
    reported (stream_of None) (Resolved state_i1) = Some itr /\
    interruptId (fallback_record closure_A (JObj []) interrupt_i1) = i_id itr.
Proof.
  destruct (published_record_is_normalised closure_A (stream_of None)
              (Resolved state_i1) (hook (fst (run awaiting_A initial)))
              (fallback_record closure_A (JObj []) interrupt_i1))
    as (itr & Hrep & Hid & _).
  - apply list_elem_of_singleton. reflexivity.
  - exists itr. split; [exact Hrep|exact Hid].
Defined.

(** X3. The tool name shown by the approval panel is the displayed record's
    [nodeName], and it is never empty. *)
Theorem panel_shows_node_name ops r :
  interruptState (hook (fst (run ops initial))) = Some r ->
  panel_toolName r = nodeName r /\ panel_toolName r <> "".
Proof.
  intros Hr.
  destruct (display_bound_run ops initial display_bound_initial) as [_ Hd].
  pose proof (Hd r (or_introl Hr)) as Hn.
  assert (panel_toolName r = nodeName r) as ->.
  { unfold panel_toolName.
    destruct (truthy (panel_actionRequest r ≫= ar_name)) eqn:Ht;
      unfold or_else at 1; rewrite Ht; [|done].
    rewrite Hn. unfold nodeName_of.
    assert (match action_requests (payload_of (pendingAction r)) with
            | Some (a :: _) => ar_name a
            | _ => None
            end = panel_actionRequest r ≫= ar_name) as ->.
    { unfold panel_actionRequest.
      by destruct (action_requests _) as [[|a l]|]. }
    unfold or_else. rewrite !Ht.
    by destruct (panel_actionRequest r ≫= ar_name). }
  split; [done|]. rewrite Hn. apply nodeName_of_nonempty.
Qed.

Lemma panel_shows_node_name_witness :
  panel_toolName (live_record closure_A (stream_of (Some interrupt_i1))
                    interrupt_i1) = "analyze_image".
Proof.
  destruct (panel_shows_node_name displayed_i1
              (live_record closure_A (stream_of (Some interrupt_i1))
                 interrupt_i1) eq_refl) as [Hn _].
  exact Hn.
Defined.

(** ** The detector switched off *)

(** X4. When a commit changes a dependency of the detector effect and the
    feature is disabled, or there is no conversation, or no credential, the
    display and the marker are cleared, no interval is left, every later
    firing of the interval and every query still in flight does nothing, and
    the ledger is emptied only if the conversation changed. *)
Theorem detector_off_is_inert ops0 p stream :
  let s := fst (run ops0 initial) in
  detector_deps_changed (props s) p = true ->
  detector_off p = true ->
  let s' := fst (render p stream s) in
  interruptState (hook s') = None /\
  lastInterruptId (hook s') = None /\
  timer s' = None /\
  (forall stream', step (Tick stream') s' = (s', [])) /\
  (forall n q, hook (fst (step (QueryReturns n q) s')) = hook s' /\
               snd (step (QueryReturns n q) s') = []) /\
  (thread_changed (props s) p = false ->
   handledInterruptIds (hook s') = handledInterruptIds (hook s)).
Proof.
  intros s Hdeps Hoff s'.
  pose proof (cells_ok_run ops0 initial cells_ok_initial) as Hok. fold s in Hok.
  assert (Hs' : hook s' = cleared (after_reset p s) /\ timer s' = None /\
                inflight s' = inflight s).
  { subst s'. rewrite render_eq; simpl. rewrite Hdeps.
    by rewrite detector_effect_off by done. }
  destruct Hs' as (Hh & Ht & Hi).
  split; [by rewrite Hh|]. split; [by rewrite Hh|]. split; [done|].
  split; [|split].
  - intros stream'. simpl. by rewrite Ht.
  - intros n q. simpl.
    destruct (inflight s' !! n) as [cl|] eqn:Hn; simpl; [|done].
    assert (torn_down cl (hook s')) as Htd.
    { apply (render_tears_down p stream s cl Hok Hdeps).
      rewrite <- Hi. by eapply list_elem_of_lookup_2. }
    by rewrite checkInterrupts_resume_torn_down.
  - intros Hth. rewrite Hh; simpl. unfold after_reset. rewrite Hth.
    unfold after_cleanup. rewrite Hdeps. by destruct (timer s).
Qed.

Lemma detector_off_is_inert_witness :
  let s' := fst (render props_A_signed_out (stream_of (Some interrupt_i1))
                   (fst (run displayed_i1 initial))) in
  interruptState (hook s') = None /\ timer s' = None.
Proof.
  intros s'.
  destruct (detector_off_is_inert displayed_i1 props_A_signed_out
              (stream_of (Some interrupt_i1)) eq_refl eq_refl)
    as (Hd & _ & Ht & _).
  split; [exact Hd|exact Ht].
Defined.

(** ** Failures of the query, and the priority of the live channel *)

(** X5. Detection never fails: a whole tick completes normally whatever the
    stream shows and whatever the query does, and when the live probe is
    silent a rejected query is treated exactly like a state that reports
    nothing: nothing is published, and the display is cleared as for "no
    interrupt". *)
Theorem detection_never_throws cl stream q h :
  completion (checkInterrupts cl stream q h) = Normal tt /\
  (exists status, completion (checkInterrupts_sync cl stream h) = Normal status) /\
  completion (checkInterrupts_resume cl q h) = Normal tt /\
  checkInterrupts cl stream Rejected h =
    checkInterrupts cl stream (Resolved empty_state) h /\
  (s_interrupt stream = None ->
   publishes (trace (checkInterrupts cl stream Rejected h)) = []).
Proof.
  split; [|split; [|split; [|split]]].
  - rewrite checkInterrupts_eq. destruct (s_interrupt stream);
      [apply consider_normal|apply checkInterrupts_resume_result].
  - apply checkInterrupts_sync_result.
  - apply checkInterrupts_resume_result.
  - rewrite !checkInterrupts_eq. destruct (s_interrupt stream); [done|].
    by rewrite !checkInterrupts_resume_eq.
  - intros Hs. rewrite checkInterrupts_no_candidate.
    + apply clear_if_marked_publishes.
    + unfold candidate. by rewrite Hs.
Qed.

(** X6. When the live probe reports an interrupt the tick ends without
    issuing the query: nothing is left in flight and the outcome of a query
    plays no role. When it reports nothing, the part of the tick before the
    query touches no cell and makes no call, and the tick is left in flight. *)
Theorem live_probe_preempts_query cl stream s :
  match s_interrupt stream with
  | Some itr =>
      inflight (fst (start_tick cl stream s)) = inflight s /\
      (forall q1 q2 h,
         checkInterrupts cl stream q1 h = checkInterrupts cl stream q2 h)
  | None =>
      inflight (fst (start_tick cl stream s)) = inflight s ++ [cl] /\
      hook (fst (start_tick cl stream s)) = hook s /\
      snd (start_tick cl stream s) = []
  end.
Proof.
  unfold start_tick; simpl. rewrite checkInterrupts_sync_eq.
  destruct (s_interrupt stream) as [itr|] eqn:Hs; simpl; [|done].
  split; [done|]. intros q1 q2 h. by rewrite !checkInterrupts_eq, Hs.
Qed.

(** ** Resolving *)

(** X7. In every reachable state the id of the displayed record is not in
    the ledger: what has been handled is never on display. *)
Theorem displayed_record_is_not_handled ops r i :
  interruptState (hook (fst (run ops initial))) = Some r ->
  interruptId r = Some i -> truthy (Some i) = true ->
  i ∉ handledInterruptIds (hook (fst (run ops initial))).
Proof. apply unhandled_display_reachable. Qed.

Lemma displayed_record_is_not_handled_witness :
  "i1" ∉ handledInterruptIds (hook (fst (run displayed_i1 initial))).
Proof.
  apply (displayed_record_is_not_handled displayed_i1
           (live_record closure_A (stream_of (Some interrupt_i1))
              interrupt_i1) "i1"); reflexivity.
Defined.




Lemma set_delete_add_fresh (i : string) (s : gset string) :
  i ∉ s -> set_delete i (set_add i s) = s.
Proof.
  intros Hi. unfold set_delete, set_add. apply set_eq. intros x.
  rewrite elem_of_difference, elem_of_union, !elem_of_singleton. split.
  - by intros [[->|?] ?].
  - intros Hx. split; [by right|]. by intros ->.
Qed.

(** X9. A failed resolve of a displayed record that carries an id, made
    on the callback of a render that shows that record, leaves every cell
    exactly as it was before the resolve: the rollback is a true undo. *)
Theorem failed_resolve_restores_cells ops d ed r i :
  let s := fst (run ops initial) in
  interruptState (hook s) = Some r -> rendered s = Some r ->
  interruptId r = Some i -> truthy (Some i) = true ->
  truthy (props s ≫= p_accessToken) = true -> d <> edit ->
  hook (fst (step (Resolve d ed true) s)) = hook s.
Proof.
  intros s Hr Hseen Hi Hti Htok Hd. simpl. rewrite Hseen.
  assert (exists e, d = approve /\ e = TypeApprove \/
                    d = reject /\ e = TypeReject) as [e He].
  { destruct d; [by exists TypeApprove; left|by exists TypeReject; right|done]. }
  rewrite (resumeRun_closure_failed _ _ _ _ r e i) by done; simpl.
  pose proof (marker_in_sync_reachable ops initial eq_refl) as Hsync.
  pose proof (unhandled_display_reachable ops r i Hr Hi Hti) as Hnin.
  fold s in Hsync, Hnin. unfold in_sync in Hsync. rewrite Hr in Hsync.
  unfold or_else in Hsync. rewrite Hi, Hti in Hsync.
  unfold rolled_back. rewrite set_delete_add_fresh by done.
  rewrite <- Hr, <- Hsync. by destruct (hook s).
Qed.

Lemma failed_resolve_restores_cells_witness :
  hook (fst (step (Resolve reject None true) (fst (run displayed_i1 initial))))
  = hook (fst (run displayed_i1 initial)).
Proof.
  apply (failed_resolve_restores_cells displayed_i1 reject None
           (live_record closure_A (stream_of (Some interrupt_i1)) interrupt_i1)
           "i1");
    [reflexivity|reflexivity|reflexivity|reflexivity|reflexivity|discriminate].
Defined.

(** * Messages: theorems *)

(** ** [filteredMessages] *)

Lemma unsupported_negb m : unsupported m = negb (supported m).
Proof.
  unfold unsupported, supported. destruct (m_type m) as [t|]; [|done].
  by rewrite negb_andb.
Qed.

Lemma filter_complement_perm {A} (f g : A -> bool) (l : list A) :
  (forall x, g x = negb (f x)) ->
  Permutation l (List.filter f l ++ List.filter g l).
Proof.
  intros Hg. induction l as [|x l IH]; simpl; [done|].
  rewrite Hg. destruct (f x); simpl.
  - by constructor.
  - by apply Permutation_cons_app.
Qed.

Lemma filter_sublist {A} (f : A -> bool) (l : list A) :
  sublist (List.filter f l) l.
Proof.
  induction l as [|x l IH]; simpl; [done|].
  destruct (f x); by constructor.
Qed.

Lemma filter_all {A} (f : A -> bool) (l : list A) :
  List.filter f l = l <-> Forall (fun x => f x = true) l.
Proof.
  induction l as [|x l IH]; simpl; [by split|].
  destruct (f x) eqn:Hx; split.
  - intros [= Hl]. constructor; [done|]. by apply IH.
  - intros Hall. apply Forall_cons in Hall as [_ Hall]. f_equal. by apply IH.
  - intros Hl. pose proof (filter_sublist f l) as Hs. rewrite Hl in Hs.
    apply sublist_length in Hs. simpl in Hs. lia.
  - intros Hall. apply Forall_cons in Hall as [Hx' _]. congruence.
Qed.

Lemma filter_none {A} (f : A -> bool) (l : list A) :
  List.filter f l = [] <-> Forall (fun x => f x = false) l.
Proof.
  induction l as [|x l IH]; simpl; [by split|].
  destruct (f x) eqn:Hx; split; try done.
  - intros Hall. apply Forall_cons in Hall as [Hx' _]. congruence.
  - intros Hl. constructor; [done|]. by apply IH.
  - intros Hall. apply Forall_cons in Hall as [_ Hall]. by apply IH.
Qed.

Lemma supported_spec m :
  supported m = true <->
  exists t, m_type m = Some t /\ t ∈ supportedTypes.
Proof.
  unfold supported, includes_type. destruct (m_type m) as [t|].
  - rewrite andb_true_iff, bool_decide_eq_true. split.
    + intros [_ Hin]. eauto.
    + intros (t' & [= <-] & Hin). split; [|done].
      unfold supportedTypes in Hin.
      repeat (apply elem_of_cons in Hin as [->|Hin]; [done|]).
      by apply elem_of_nil in Hin.
  - split; [done|]. by intros (t' & ? & _).
Qed.

(** X10. The messages the hook returns and the ones it reports as
    unsupported split the stream's messages in two: the first are exactly
    the messages whose type is one of the five supported ones, in their
    original order, the second are all the others, and something is reported
    exactly when something was dropped. A missing message list is an empty
    one. *)
Theorem filteredMessages_partition (stream_messages : option (list Message)) :
  let raw := rawMessages stream_messages in
  Permutation raw
    (filteredMessages stream_messages ++ unsupportedMessages stream_messages) /\
  sublist (filteredMessages stream_messages) raw /\
  sublist (unsupportedMessages stream_messages) raw /\
  (forall m, m ∈ filteredMessages stream_messages <->
             m ∈ raw /\ exists t, m_type m = Some t /\ t ∈ supportedTypes) /\
  (unsupportedMessages stream_messages = [] <->
   filteredMessages stream_messages = raw) /\
  (stream_messages = None -> filteredMessages stream_messages = []).
Proof.
  intros raw. unfold filteredMessages, unsupportedMessages. fold raw.
  split; [apply filter_complement_perm, unsupported_negb|].
  split; [apply filter_sublist|]. split; [apply filter_sublist|].
  split; [|split].
  - intros m. rewrite <- supported_spec, !list_elem_of_In, filter_In. done.
  - rewrite filter_none, filter_all. apply Forall_iff. intros m.
    rewrite unsupported_negb. by destruct (supported m).
  - by intros ->.
Qed.

Lemma filter_idem {A} (f : A -> bool) (l : list A) :
  List.filter f (List.filter f l) = List.filter f l.
Proof.
  induction l as [|x l IH]; simpl; [done|].
  destruct (f x) eqn:Hx; simpl; by rewrite ?Hx, ?IH.
Qed.

(** X11. The interface filters the hook's messages a second time with the
    same test; that second pass removes nothing, and the processed messages
    are the same whether computed from the hook's messages or from the
    stream's raw ones. *)
Theorem interface_filter_is_redundant rand
    (stream_messages : option (list Message)) :
  validMessages (filteredMessages stream_messages) =
    filteredMessages stream_messages /\
  processedMessages rand (filteredMessages stream_messages) =
    processedMessages rand (rawMessages stream_messages).
Proof.
  assert (H : validMessages (filteredMessages stream_messages) =
              filteredMessages stream_messages) by apply filter_idem.
  split; [done|].
  unfold processedMessages, build_messageMap. by rewrite H.
Qed.

(** ** [extractStringFromMessageContent] *)

Lemma string_app_assoc (a b c : string) :
  String.append (String.append a b) c = String.append a (String.append b c).
Proof.
  induction a as [|x a IH]; [done|].
  change (String x (String.append (String.append a b) c) =
          String x (String.append a (String.append b c))).
  by rewrite IH.
Qed.

Lemma string_app_nil_r (a : string) : String.append a "" = a.
Proof.
  induction a as [|x a IH]; [done|].
  change (String x (String.append a "") = String x a). by rewrite IH.
Qed.

Lemma join_empty_app l1 l2 :
  join_empty (l1 ++ l2) = String.append (join_empty l1) (join_empty l2).
Proof.
  induction l1 as [|s l1 IH]; [done|].
  change (String.append s (join_empty (l1 ++ l2)) =
          String.append (String.append s (join_empty l1)) (join_empty l2)).
  by rewrite IH, string_app_assoc.
Qed.

(** X12. The text of an array content is the concatenation, in order, of
    what its parts contribute: a string part contributes itself, a part of
    type "text" contributes its [text] (the empty string when it has none),
    and every other part (an image, a tool use) contributes nothing.  A
    content that is neither a string nor an array gives the empty string. *)
Theorem extractString_concatenates parts1 parts2 :
  extractStringFromContent (ContentArray (parts1 ++ parts2)) =
    String.append (extractStringFromContent (ContentArray parts1))
      (extractStringFromContent (ContentArray parts2)) /\
  (forall s, extractStringFromContent (ContentArray [PartString s]) = s) /\
  (forall b, b_type b = Some "text" ->
     extractStringFromContent (ContentArray [PartObject b]) =
       default "" (b_text b) /\
     extractStringFromContent
       (ContentArray (parts1 ++ PartObject b :: parts2)) =
       String.append (extractStringFromContent (ContentArray parts1))
         (String.append (default "" (b_text b))
            (extractStringFromContent (ContentArray parts2)))) /\
  (forall b, b_type b <> Some "text" ->
     extractStringFromContent (ContentArray (parts1 ++ PartObject b :: parts2)) =
     extractStringFromContent (ContentArray (parts1 ++ parts2))) /\
  extractStringFromContent ContentOther = "".
Proof.
  assert (Happ : forall p1 p2,
    extractStringFromContent (ContentArray (p1 ++ p2)) =
    String.append (extractStringFromContent (ContentArray p1))
      (extractStringFromContent (ContentArray p2))).
  { intros p1 p2. simpl.
    by rewrite List.filter_app, List.map_app, join_empty_app. }
  assert (Htext : forall b, b_type b = Some "text" ->
    extractStringFromContent (ContentArray [PartObject b]) =
      default "" (b_text b)).
  { intros b Hb. simpl. rewrite bool_decide_true by done. simpl.
    unfold or_else. destruct (b_text b) as [[|c t]|]; simpl;
      by rewrite ?string_app_nil_r. }
  split; [apply Happ|]. split; [|split; [|split; [|done]]].
  - intros s. simpl. by rewrite string_app_nil_r.
  - intros b Hb. split; [by apply Htext|].
    rewrite Happ. f_equal.
    change (PartObject b :: parts2) with ([PartObject b] ++ parts2).
    by rewrite Happ, Htext.
  - intros b Hb. rewrite !Happ. f_equal.
    change (PartObject b :: parts2) with ([PartObject b] ++ parts2).
    rewrite Happ. simpl. by rewrite bool_decide_false.
Qed.

(** ** [processedMessages] *)

Lemma map_set_keys key v m :
  map fst (map_set key v m) =
    if bool_decide (key ∈ map fst m) then map fst m else map fst m ++ [key].
Proof.
  induction m as [|[k' v'] m IH]; simpl; [done|].
  destruct (bool_decide_reflect (key = k')) as [Hk|Hk]; simpl.
  - rewrite <- Hk. rewrite bool_decide_true; [done|]. apply elem_of_cons. by left.
  - rewrite IH. destruct (bool_decide_reflect (key ∈ map fst m)) as [Hin|Hin].
    + rewrite bool_decide_true; [done|]. apply elem_of_cons. by right.
    + rewrite bool_decide_false; [done|].
      intros [?|?]%elem_of_cons; [congruence|done].
Qed.

Lemma map_set_elem key v m kv :
  kv ∈ map_set key v m -> kv = (key, v) \/ kv ∈ m.
Proof.
  induction m as [|[k' v'] m IH]; simpl.
  - intros ->%list_elem_of_singleton. by left.
  - destruct (bool_decide_reflect (key = k')) as [Hk|Hk].
    + intros [->|?]%elem_of_cons; [by left|]. right. apply elem_of_cons. by right.
    + intros [->|Hin]%elem_of_cons; [right; apply elem_of_cons; by left|].
      destruct (IH Hin); [by left|]. right. apply elem_of_cons. by right.
Qed.

Lemma map_set_ok key v m :
  key = m_id (e_message v) -> is_shown (e_message v) = true ->
  map_ok m -> map_ok (map_set key v m).
Proof.
  intros Hk Hs [Hnd Hall]. split.
  - rewrite map_set_keys. case_bool_decide; [done|].
    apply NoDup_app. split; [done|]. split.
    + intros x Hx ->%list_elem_of_singleton. done.
    + apply NoDup_singleton.
  - apply Forall_forall. intros kv [->|Hin]%map_set_elem; [done|].
    by apply (proj1 (Forall_forall _ _) Hall).
Qed.

Lemma complete_toolCall_erase t res tcs tcs' :
  complete_toolCall t res tcs = Some tcs' ->
  map erase_status tcs' = map erase_status tcs.
Proof.
  revert tcs'. induction tcs as [|tc tcs IH]; intros tcs'; simpl; [done|].
  case_bool_decide.
  - by intros [= <-].
  - destruct (complete_toolCall t res tcs) as [r|]; simpl; [|done].
    intros [= <-]. simpl. by rewrite (IH r).
Qed.

Lemma complete_first_erase t res m :
  map erase_entry (complete_first t res m) = map erase_entry m.
Proof.
  induction m as [|[k e] m IH]; simpl; [done|].
  destruct (complete_toolCall t res (e_toolCalls e)) as [tcs|] eqn:Hc; simpl.
  - unfold erase_entry at 1 3; simpl.
    by rewrite (complete_toolCall_erase _ _ _ _ Hc).
  - by rewrite IH.
Qed.

Lemma erase_entry_keys m : map fst m = map (fun x => fst (fst x)) (map erase_entry m).
Proof. rewrite map_map. by apply map_ext. Qed.

Lemma erase_entry_messages m :
  map (fun kv => e_message (snd kv)) m =
  map (fun x => snd (fst x)) (map erase_entry m).
Proof. rewrite map_map. by apply map_ext. Qed.

Lemma complete_first_ok t res m : map_ok m -> map_ok (complete_first t res m).
Proof.
  intros [Hnd Hall]. split.
  - by rewrite erase_entry_keys, complete_first_erase, <- erase_entry_keys.
  - assert (Hf : forall l : list (option string * Entry),
      Forall (fun kv => fst kv = m_id (e_message (snd kv)) /\
                        is_shown (e_message (snd kv)) = true) l <->
      Forall (fun x => fst (fst x) = m_id (snd (fst x)) /\
                       is_shown (snd (fst x)) = true) (map erase_entry l)).
    { intros l. by rewrite Forall_map. }
    apply Hf. rewrite complete_first_erase. by apply Hf.
Qed.

Lemma process_message_ok rand message m k :
  map_ok m -> map_ok (fst (process_message rand message (m, k))).
Proof.
  intros Hok. unfold process_message.
  case_bool_decide as Hai.
  - destruct (toolCallsWithStatus rand k _) as [tcs k']; simpl.
    apply map_set_ok; [done| |done]. unfold is_shown; simpl.
    by rewrite bool_decide_true.
  - case_bool_decide as Htool.
    + destruct (m_tool_call_id message) as [t|]; [|done].
      destruct (truthy (Some t)); [|done]. simpl. by apply complete_first_ok.
    + case_bool_decide as Hh; [|done]. simpl.
      apply map_set_ok; [done| |done]. unfold is_shown; simpl.
      rewrite (bool_decide_true (_ = Some "human")) by done.
      by rewrite orb_true_r.
Qed.

Lemma fold_process_ok rand l acc :
  map_ok (fst acc) ->
  map_ok (fst (fold_left (fun acc message => process_message rand message acc)
                 l acc)).
Proof.
  revert acc. induction l as [|message l IH]; intros [m k] Hok; simpl; [done|].
  apply IH. by apply process_message_ok.
Qed.

Lemma build_messageMap_ok rand messages :
  map_ok (build_messageMap rand messages).
Proof.
  apply fold_process_ok. split; [constructor|constructor].
Qed.

Lemma with_avatars_messages prev l :
  map pr_message (with_avatars prev l) = map e_message l.
Proof.
  revert prev. induction l as [|e l IH]; intros prev; simpl; [done|].
  by rewrite IH.
Qed.

Lemma with_avatars_lookup prev l i p :
  with_avatars prev l !! i = Some p ->
  pr_showAvatar p =
    negb (bool_decide
            (m_type (pr_message p) =
             match i with
             | 0 => prev
             | S j => default None (m_type <$> (pr_message <$> with_avatars prev l !! j))
             end)).
Proof.
  revert prev i. induction l as [|e l IH]; intros prev i; [done|].
  destruct i as [|i]; simpl.
  - by intros [= <-].
  - intros Hp. rewrite (IH _ _ Hp). destruct i as [|i]; simpl; [|done].
    by destruct l.
Qed.

Lemma with_avatars_elem prev l p :
  p ∈ with_avatars prev l ->
  exists e, e ∈ l /\ pr_message p = e_message e /\ pr_toolCalls p = e_toolCalls e.
Proof.
  revert prev. induction l as [|e l IH]; intros prev; simpl.
  - by intros ?%elem_of_nil.
  - intros [->|Hin]%elem_of_cons.
    + exists e. split; [apply elem_of_cons; by left|done].
    + destruct (IH _ Hin) as (e' & He' & Hm). exists e'.
      split; [apply elem_of_cons; by right|done].
Qed.

Lemma complete_first_elem t res m kv :
  kv ∈ complete_first t res m ->
  exists kv', kv' ∈ m /\ fst kv' = fst kv /\
              e_message (snd kv') = e_message (snd kv).
Proof.
  induction m as [|[k e] m IH]; simpl.
  - by intros ?%elem_of_nil.
  - destruct (complete_toolCall t res (e_toolCalls e)) as [tcs|].
    + intros [->|Hin]%elem_of_cons.
      * exists (k, e). split; [apply elem_of_cons; by left|done].
      * exists kv. split; [apply elem_of_cons; by right|done].
    + intros [->|Hin]%elem_of_cons.
      * exists (k, e). split; [apply elem_of_cons; by left|done].
      * destruct (IH Hin) as (kv' & Hin' & Hk). exists kv'.
        split; [apply elem_of_cons; by right|done].
Qed.

(** Every entry of the map holds a message of the list processed. *)
Lemma fold_process_messages rand (Q : Message -> Prop) l acc :
  Forall Q l ->
  Forall (fun kv => Q (e_message (snd kv))) (fst acc) ->
  Forall (fun kv => Q (e_message (snd kv)))
    (fst (fold_left (fun acc message => process_message rand message acc)
            l acc)).
Proof.
  revert acc. induction l as [|message l IH]; intros [m k] Hl Hm; simpl; [done|].
  apply Forall_cons in Hl as [Hq Hl]. apply IH; [done|].
  unfold process_message.
  destruct (bool_decide (m_type message = Some "ai")).
  - destruct (toolCallsWithStatus rand k _) as [tcs k']; simpl.
    apply Forall_forall. intros kv [->|Hin]%map_set_elem; [done|].
    by apply (proj1 (Forall_forall _ _) Hm).
  - destruct (bool_decide (m_type message = Some "tool")).
    + destruct (m_tool_call_id message) as [t|]; [|done].
      destruct (truthy (Some t)); [|done]. simpl.
      apply Forall_forall. intros kv (kv' & Hin & _ & <-)%complete_first_elem.
      by apply (proj1 (Forall_forall _ _) Hm).
    + destruct (bool_decide (m_type message = Some "human")); [|done]. simpl.
      apply Forall_forall. intros kv [->|Hin]%map_set_elem; [done|].
      by apply (proj1 (Forall_forall _ _) Hm).
Qed.

Lemma build_messageMap_messages rand messages :
  Forall (fun kv => e_message (snd kv) ∈ messages)
    (build_messageMap rand messages).
Proof.
  apply (fold_process_messages rand (fun m => m ∈ messages)); [|constructor].
  apply Forall_forall. intros m Hm. unfold validMessages in Hm.
  apply list_elem_of_In, List.filter_In in Hm as [Hm _].
  by apply list_elem_of_In.
Qed.

Lemma is_shown_type m :
  is_shown m = true ->
  m_type m = Some "ai" \/ m_type m = Some "human".
Proof.
  unfold is_shown. intros [H|H]%orb_true_iff; apply bool_decide_eq_true in H; auto.
Qed.

(** X13. The processed messages are AI and human messages of the input, no
    two of them with the same message id; the first one shows the avatar,
    and a later one shows it exactly when its type differs from that of the
    entry before it. *)
Theorem processedMessages_shape rand messages :
  let out := processedMessages rand messages in
  Forall (fun p => pr_message p ∈ messages /\
                   (m_type (pr_message p) = Some "ai" \/
                    m_type (pr_message p) = Some "human")) out /\
  NoDup (map (fun p => m_id (pr_message p)) out) /\
  (forall p, out !! 0 = Some p -> pr_showAvatar p = true) /\
  (forall i p q, out !! i = Some p -> out !! S i = Some q ->
     pr_showAvatar q =
       negb (bool_decide (m_type (pr_message q) = m_type (pr_message p)))).
Proof.
  intros out.
  pose proof (build_messageMap_ok rand messages) as [Hnd Hall].
  pose proof (build_messageMap_messages rand messages) as Hin.
  assert (Hshown : forall p, p ∈ out ->
            pr_message p ∈ messages /\ is_shown (pr_message p) = true).
  { intros p (e & He & -> & _)%with_avatars_elem.
    apply list_elem_of_fmap in He as (kv & -> & Hkv).
    split.
    - by apply (proj1 (Forall_forall _ _) Hin kv).
    - by apply (proj1 (Forall_forall _ _) Hall kv). }
  repeat split.
  - apply Forall_forall. intros p Hp. destruct (Hshown p Hp) as [? Hs].
    split; [done|]. by apply is_shown_type.
  - subst out. unfold processedMessages.
    rewrite <- (map_map pr_message m_id), with_avatars_messages.
    rewrite !map_map.
    replace (map (fun x => m_id (e_message (snd x))) (build_messageMap rand messages))
      with (map fst (build_messageMap rand messages)); [done|].
    apply map_ext_Forall. eapply Forall_impl; [exact Hall|].
    by intros kv [? _].
  - intros p Hp. rewrite (with_avatars_lookup _ _ _ _ Hp).
    assert (Hs : p ∈ out) by (by eapply list_elem_of_lookup_2).
    destruct (Hshown p Hs) as [_ [->| ->]%is_shown_type]; done.
  - intros i p q Hp Hq. rewrite (with_avatars_lookup _ _ _ _ Hq).
    fold out. unfold processedMessages in out. fold out. by rewrite Hp.
Qed.

(** ** The entry of an id is its latest message *)

Lemma process_all_snoc rand l x :
  process_all rand (l ++ [x]) = process_message rand x (process_all rand l).
Proof. unfold process_all. by rewrite fold_left_app. Qed.

Lemma process_all_ok rand l : map_ok (fst (process_all rand l)).
Proof. apply fold_process_ok. split; constructor. Qed.

Lemma map_set_elem_strong key v m kv :
  NoDup (map fst m) ->
  kv ∈ map_set key v m -> kv = (key, v) \/ (kv ∈ m /\ fst kv <> key).
Proof.
  induction m as [|[k' v'] m IH]; simpl; intros Hnd.
  - intros ->%list_elem_of_singleton. by left.
  - apply NoDup_cons in Hnd as [Hk' Hnd].
    destruct (bool_decide_reflect (key = k')) as [Hk|Hk].
    + intros [->|Hin]%elem_of_cons; [by left|]. right.
      split; [apply elem_of_cons; by right|].
      intros Heq. apply Hk'. rewrite <- Hk, <- Heq.
      apply list_elem_of_fmap. by exists kv.
    + intros [->|Hin]%elem_of_cons.
      * right. split; [apply elem_of_cons; by left|]. simpl. congruence.
      * destruct (IH Hnd Hin) as [?|[? ?]]; [by left|]. right.
        split; [apply elem_of_cons; by right|done].
Qed.

Lemma map_set_has_key key v m : (key, v) ∈ map_set key v m.
Proof.
  induction m as [|[k' v'] m IH]; simpl.
  - by apply list_elem_of_singleton.
  - destruct (bool_decide_reflect (key = k')).
    + apply elem_of_cons. by left.
    + apply elem_of_cons. by right.
Qed.

Lemma map_set_keeps_keys key v m k :
  k ∈ map fst m -> k ∈ map fst (map_set key v m).
Proof.
  rewrite map_set_keys. destruct (bool_decide _); [done|].
  intros ?. apply elem_of_app. by left.
Qed.

Lemma last_snoc_filter (f : Message -> bool) l x :
  last (List.filter f (l ++ [x])) =
    if f x then Some x else last (List.filter f l).
Proof.
  rewrite List.filter_app. simpl. destruct (f x).
  - by rewrite last_snoc.
  - by rewrite app_nil_r.
Qed.

Lemma carries_not_shown key m : is_shown m = false -> carries key m = false.
Proof. unfold carries. by intros ->. Qed.

Lemma carries_own m : is_shown m = true -> carries (m_id m) m = true.
Proof. unfold carries. intros ->. by rewrite bool_decide_true. Qed.

Lemma carries_other key m : m_id m <> key -> carries key m = false.
Proof.
  unfold carries. intros ?. rewrite bool_decide_false by done.
  by rewrite andb_false_r.
Qed.

(** The shape of one turn, by the kind of the message. *)
Lemma process_message_cases rand x m k :
  (is_shown x = true /\
   exists tcs, fst (process_message rand x (m, k)) =
                 map_set (m_id x) {| e_message := x; e_toolCalls := tcs |} m) \/
  (is_shown x = false /\
   exists t res, fst (process_message rand x (m, k)) = complete_first t res m) \/
  (is_shown x = false /\ fst (process_message rand x (m, k)) = m).
Proof.
  unfold process_message, is_shown.
  destruct (bool_decide_reflect (m_type x = Some "ai")) as [Hai|Hai].
  - left. split; [done|].
    destruct (toolCallsWithStatus rand k _) as [tcs k']. by exists tcs.
  - destruct (bool_decide_reflect (m_type x = Some "tool")) as [Ht|Ht].
    + right. rewrite (bool_decide_false (_ = Some "human")) by congruence.
      destruct (m_tool_call_id x) as [t|]; [|by right].
      destruct (truthy (Some t)); [|by right]. left.
      split; [done|]. by eexists _, _.
    + destruct (bool_decide_reflect (m_type x = Some "human")) as [Hh|Hh].
      * left. split; [done|]. by eexists.
      * right. right. done.
Qed.

Lemma process_all_latest rand l :
  (forall kv, kv ∈ fst (process_all rand l) ->
     last (List.filter (carries (fst kv)) l) = Some (e_message (snd kv))) /\
  (forall x, x ∈ l -> is_shown x = true ->
     m_id x ∈ map fst (fst (process_all rand l))).
Proof.
  induction l as [|x l [IH1 IH2]] using rev_ind.
  - split; [by intros kv ?%elem_of_nil|by intros x ?%elem_of_nil].
  - rewrite process_all_snoc.
    pose proof (process_all_ok rand l) as [Hnd _].
    destruct (process_all rand l) as [m k]; cbn [fst] in *.
    destruct (process_message_cases rand x m k)
      as [[Hs [tcs ->]]|[[Hs (t & res & ->)]|[Hs ->]]].
    + split.
      * intros kv Hkv.
        destruct (map_set_elem_strong _ _ _ _ Hnd Hkv) as [->|[Hin Hne]].
        -- rewrite last_snoc_filter. simpl. by rewrite carries_own.
        -- rewrite last_snoc_filter, carries_other by done. by apply IH1.
      * intros y [Hy|Hy]%elem_of_app Hys; [|apply list_elem_of_singleton in Hy as ->].
        -- apply map_set_keeps_keys. by apply IH2.
        -- apply list_elem_of_fmap. eexists (_, _).
           split; [|apply map_set_has_key]. done.
    + split.
      * intros kv (kv' & Hin & Hk & He)%complete_first_elem.
        rewrite last_snoc_filter, carries_not_shown by done.
        rewrite <- Hk, <- He. by apply IH1.
      * intros y [Hy|Hy]%elem_of_app Hys; [|apply list_elem_of_singleton in Hy as ->; congruence].
        rewrite erase_entry_keys, complete_first_erase, <- erase_entry_keys.
        by apply IH2.
    + split.
      * intros kv Hin. rewrite last_snoc_filter, carries_not_shown by done.
        by apply IH1.
      * intros y [Hy|Hy]%elem_of_app Hys; [|apply list_elem_of_singleton in Hy as ->; congruence].
        by apply IH2.
Qed.

Lemma is_shown_supported m : is_shown m = true -> supported m = true.
Proof.
  intros [H|H]%is_shown_type; unfold supported; rewrite H; done.
Qed.

Lemma filter_carries_valid key messages :
  List.filter (carries key) (validMessages messages) =
  List.filter (carries key) messages.
Proof.
  unfold validMessages. induction messages as [|m l IH]; simpl; [done|].
  destruct (supported m) eqn:Hs; simpl; rewrite IH; [done|].
  destruct (carries key m) eqn:Hc; [|done].
  unfold carries in Hc. apply andb_true_iff in Hc as [Hc _].
  apply is_shown_supported in Hc. congruence.
Qed.

(** X14. Each processed message is the last AI or human message of the input
    that carries its id, and every AI or human message of the input has its
    id among the processed messages. *)
Theorem processedMessages_keeps_latest rand messages :
  (forall p, p ∈ processedMessages rand messages ->
     last (List.filter (carries (m_id (pr_message p))) messages)
       = Some (pr_message p)) /\
  (forall m, m ∈ messages -> is_shown m = true ->
     exists p, p ∈ processedMessages rand messages /\
               m_id (pr_message p) = m_id m).
Proof.
  pose proof (process_all_latest rand (validMessages messages)) as [H1 H2].
  pose proof (build_messageMap_ok rand messages) as [_ Hall].
  assert (Hmsgs : forall e, e ∈ map snd (build_messageMap rand messages) ->
            exists p, p ∈ processedMessages rand messages /\
                      pr_message p = e_message e).
  { intros e He. unfold processedMessages.
    assert (Hm : e_message e ∈
              map pr_message (with_avatars None
                                (map snd (build_messageMap rand messages)))).
    { rewrite with_avatars_messages. apply list_elem_of_fmap. by exists e. }
    apply list_elem_of_fmap in Hm as (p & Hp & Hin). by exists p. }
  split.
  - intros p (e & He & Hm & _)%with_avatars_elem.
    apply list_elem_of_fmap in He as (kv & -> & Hkv).
    rewrite Hm, <- filter_carries_valid.
    destruct (proj1 (Forall_forall _ _) Hall kv Hkv) as [<- _].
    by apply H1.
  - intros m Hm Hs.
    assert (Hv : m ∈ validMessages messages).
    { apply list_elem_of_In, List.filter_In. split; [by apply list_elem_of_In|].
      by apply is_shown_supported. }
    specialize (H2 m Hv Hs).
    apply list_elem_of_fmap in H2 as (kv & Hk & Hkv).
    destruct (Hmsgs (snd kv)) as (p & Hp & Hpm).
    { apply list_elem_of_fmap. by exists kv. }
    exists p. split; [done|]. rewrite Hpm, Hk.
    by destruct (proj1 (Forall_forall _ _) Hall kv Hkv) as [<- _].
Qed.

(** ** Tool messages only touch the status and result of tool calls *)

Lemma map_set_erase key v1 v2 m1 m2 :
  e_message v1 = e_message v2 ->
  map erase_status (e_toolCalls v1) = map erase_status (e_toolCalls v2) ->
  map erase_entry m1 = map erase_entry m2 ->
  map erase_entry (map_set key v1 m1) = map erase_entry (map_set key v2 m2).
Proof.
  intros Hm Ht. revert m2.
  induction m1 as [|[k1 e1] m1 IH]; intros [|[k2 e2] m2]; simpl; try done.
  - intros _. unfold erase_entry; simpl. by rewrite Hm, Ht.
  - intros [= -> He Htc Hrest].
    destruct (bool_decide (key = k2)); simpl.
    + unfold erase_entry at 1 3; simpl. by rewrite Hm, Ht, Hrest.
    + unfold erase_entry at 1 3; simpl. by rewrite He, Htc, (IH m2 Hrest).
Qed.

Lemma process_message_no_tool rand x m1 m2 k :
  is_tool x = false ->
  map erase_entry m1 = map erase_entry m2 ->
  map erase_entry (fst (process_message rand x (m1, k))) =
    map erase_entry (fst (process_message rand x (m2, k))) /\
  snd (process_message rand x (m1, k)) = snd (process_message rand x (m2, k)).
Proof.
  unfold is_tool, process_message. intros -> Hm.
  destruct (bool_decide (m_type x = Some "ai")).
  - destruct (toolCallsWithStatus rand k _) as [tcs k']; simpl.
    split; [|done]. by apply map_set_erase.
  - destruct (bool_decide (m_type x = Some "human")); simpl; [|done].
    split; [|done]. by apply map_set_erase.
Qed.

Lemma process_message_tool rand x m k :
  is_tool x = true ->
  map erase_entry (fst (process_message rand x (m, k))) = map erase_entry m /\
  snd (process_message rand x (m, k)) = k.
Proof.
  unfold is_tool, process_message. intros Ht.
  pose proof Ht as Ht'. apply bool_decide_eq_true in Ht'.
  rewrite (bool_decide_false (_ = Some "ai")) by congruence.
  rewrite Ht.
  destruct (m_tool_call_id x) as [t|]; [|done].
  destruct (truthy (Some t)); [|done]. simpl.
  by rewrite complete_first_erase.
Qed.

Lemma fold_process_without_tools rand l acc1 acc2 :
  map erase_entry (fst acc1) = map erase_entry (fst acc2) ->
  snd acc1 = snd acc2 ->
  map erase_entry
    (fst (fold_left (fun acc message => process_message rand message acc)
            l acc1)) =
  map erase_entry
    (fst (fold_left (fun acc message => process_message rand message acc)
            (List.filter (fun m => negb (is_tool m)) l) acc2)).
Proof.
  revert acc1 acc2.
  induction l as [|x l IH]; intros [m1 k1] [m2 k2];
    cbn [fold_left List.filter fst snd]; [done|].
  intros Hm ->. destruct (is_tool x) eqn:Ht; cbn [negb fold_left].
  - destruct (process_message_tool rand x m1 k2 Ht) as [H1 H2].
    apply IH; [by rewrite H1|by rewrite H2].
  - apply IH; by apply process_message_no_tool.
Qed.

Lemma with_avatars_erase prev l1 l2 :
  map (fun e => (e_message e, map erase_status (e_toolCalls e))) l1 =
  map (fun e => (e_message e, map erase_status (e_toolCalls e))) l2 ->
  map erase_processed (with_avatars prev l1) =
  map erase_processed (with_avatars prev l2).
Proof.
  revert prev l2. induction l1 as [|e1 l1 IH]; intros prev [|e2 l2]; simpl;
    try done.
  intros [= Hm Ht Hrest]. unfold erase_processed at 1 3; simpl.
  by rewrite Hm, Ht, (IH _ l2 Hrest).
Qed.

Lemma filter_valid_without_tools messages :
  validMessages (List.filter (fun m => negb (is_tool m)) messages) =
  List.filter (fun m => negb (is_tool m)) (validMessages messages).
Proof.
  unfold validMessages. induction messages as [|m l IH]; simpl; [done|].
  destruct (is_tool m) eqn:Ht; destruct (supported m) eqn:Hs; simpl;
    rewrite ?Hs, ?Ht, ?IH; done.
Qed.

(** X15. Dropping the tool messages from the input leaves the processed
    messages the same (messages, their order, the avatar flags, and the id,
    name and arguments of every tool call), up to the status and result of
    the tool calls. *)
Theorem tool_messages_only_complete_calls rand messages :
  map erase_processed (processedMessages rand messages) =
  map erase_processed
    (processedMessages rand
       (List.filter (fun m => negb (is_tool m)) messages)).
Proof.
  unfold processedMessages. apply with_avatars_erase.
  unfold build_messageMap. rewrite filter_valid_without_tools.
  pose proof (fold_process_without_tools rand (validMessages messages)
                ([], 0) ([], 0) eq_refl eq_refl) as H.
  rewrite !map_map.
  apply (f_equal (map (fun x => (snd (fst x), snd x)))) in H.
  rewrite !map_map in H. exact H.
Qed.

(** ** A completed tool call has a tool message behind it *)

Lemma toolCallsWithStatus_pending rand k l msgs :
  Forall (toolCall_justified msgs) (fst (toolCallsWithStatus rand k l)).
Proof.
  revert k. induction l as [|b l IH]; intros k; simpl; [constructor|].
  destruct (if truthy (b_id b) then _ else _) as [id k1].
  specialize (IH k1). destruct (toolCallsWithStatus rand k1 l) as [rest k2].
  simpl in *. constructor; [|done]. by left.
Qed.

Lemma toolCall_justified_mono l1 l2 tc :
  l1 ⊆ l2 -> toolCall_justified l1 tc -> toolCall_justified l2 tc.
Proof.
  intros Hsub [?|[? (m & Hin & ?)]]; [by left|]. right.
  split; [done|]. exists m. split; [by apply Hsub|done].
Qed.

Lemma complete_toolCall_justified msgs x t tcs tcs' :
  x ∈ msgs -> m_type x = Some "tool" -> m_tool_call_id x = Some t ->
  Forall (toolCall_justified msgs) tcs ->
  complete_toolCall t (extractStringFromMessageContent x) tcs = Some tcs' ->
  Forall (toolCall_justified msgs) tcs'.
Proof.
  intros Hx Ht Hid. revert tcs'.
  induction tcs as [|tc tcs IH]; intros tcs' Hall; simpl; [done|].
  apply Forall_cons in Hall as [Htc Hall].
  destruct (bool_decide_reflect (tc_id tc = t)) as [Heq|Hne].
  - intros [= <-]. constructor; [|done]. right. split; [done|].
    exists x. simpl. by rewrite Heq.
  - destruct (complete_toolCall t _ tcs) as [r|]; simpl; [|done].
    intros [= <-]. constructor; [done|]. by apply IH.
Qed.

Lemma complete_first_justified msgs x t m :
  x ∈ msgs -> m_type x = Some "tool" -> m_tool_call_id x = Some t ->
  Forall (fun kv => Forall (toolCall_justified msgs) (e_toolCalls (snd kv))) m ->
  Forall (fun kv => Forall (toolCall_justified msgs) (e_toolCalls (snd kv)))
    (complete_first t (extractStringFromMessageContent x) m).
Proof.
  intros Hx Ht Hid. induction m as [|[k e] m IH]; intros Hall; simpl; [done|].
  apply Forall_cons in Hall as [He Hall].
  destruct (complete_toolCall t _ (e_toolCalls e)) as [tcs|] eqn:Hc.
  - constructor; [|done]. simpl.
    by apply (complete_toolCall_justified msgs x t (e_toolCalls e)).
  - constructor; [done|]. by apply IH.
Qed.

Lemma process_all_justified rand l :
  Forall (fun kv => Forall (toolCall_justified l) (e_toolCalls (snd kv)))
    (fst (process_all rand l)).
Proof.
  induction l as [|x l IH] using rev_ind; [constructor|].
  rewrite process_all_snoc.
  assert (Hmono :
    Forall (fun kv => Forall (toolCall_justified (l ++ [x]))
                        (e_toolCalls (snd kv))) (fst (process_all rand l))).
  { eapply Forall_impl; [exact IH|]. intros kv Hkv.
    eapply Forall_impl; [exact Hkv|]. intros tc.
    apply toolCall_justified_mono. intros y ?. apply elem_of_app. by left. }
  clear IH. destruct (process_all rand l) as [m k]; cbn [fst] in *.
  unfold process_message.
  destruct (bool_decide (m_type x = Some "ai")).
  - pose proof (toolCallsWithStatus_pending rand k (toolCallsInMessage x)
                  (l ++ [x])) as Hp.
    destruct (toolCallsWithStatus rand k _) as [tcs k']; simpl in *.
    apply Forall_forall. intros kv [->|Hin]%map_set_elem; [done|].
    by apply (proj1 (Forall_forall _ _) Hmono).
  - destruct (bool_decide_reflect (m_type x = Some "tool")) as [Ht|Ht].
    + destruct (m_tool_call_id x) as [t|] eqn:Hid; [|done].
      destruct (truthy (Some t)); [|done]. simpl.
      apply complete_first_justified; try done.
      apply elem_of_app. right. by apply list_elem_of_singleton.
    + destruct (bool_decide (m_type x = Some "human")); [|done]. simpl.
      apply Forall_forall. intros kv [->|Hin]%map_set_elem; [constructor|].
      by apply (proj1 (Forall_forall _ _) Hmono).
Qed.

(** X16. Every tool call shown is either pending without a result, or
    completed with, as its result, the text of a tool message of the input
    whose [tool_call_id] is the id of the call; no tool call is ever given
    the error status. *)
Theorem completed_toolCall_has_tool_message rand messages p tc :
  p ∈ processedMessages rand messages ->
  tc ∈ pr_toolCalls p ->
  toolCall_justified messages tc /\ tc_status tc <> StatusError.
Proof.
  intros (e & He & _ & Htcs)%with_avatars_elem Htc.
  apply list_elem_of_fmap in He as (kv & -> & Hkv).
  pose proof (process_all_justified rand (validMessages messages)) as Hall.
  pose proof (proj1 (Forall_forall _ _) Hall kv Hkv) as Hj.
  rewrite Htcs in Htc.
  pose proof (proj1 (Forall_forall _ _) Hj tc Htc) as Hjust.
  assert (Hj' : toolCall_justified messages tc).
  { eapply toolCall_justified_mono; [|exact Hjust].
    intros y Hy. unfold validMessages in Hy.
    apply list_elem_of_In, List.filter_In in Hy as [Hy _].
    by apply list_elem_of_In. }
  split; [done|]. destruct Hj' as [[-> _]|[-> _]]; done.
Qed.

Lemma completed_toolCall_has_tool_message_witness :
  toolCall_justified [ai_with_call; tool_result] completed_search /\
  tc_status completed_search <> StatusError.
Proof.
  apply (completed_toolCall_has_tool_message (fun _ => "tool-0")
           [ai_with_call; tool_result]
           {| pr_message := ai_with_call; pr_toolCalls := [completed_search];
              pr_showAvatar := true |}).
  - vm_compute. constructor.
  - vm_compute. constructor.
Defined.

(** ** Where the approval panel is rendered *)

Lemma shouldShowInterrupt_lookup ist processed i :
  shouldShowInterrupt ist processed !! i =
    (fun data =>
       bool_decide (is_Some ist)
       && bool_decide (Z.of_nat i = Z.of_nat (length processed) - 1)%Z
       && bool_decide (m_type (pr_message data) = Some "ai"))
    <$> processed !! i.
Proof. unfold shouldShowInterrupt. by rewrite list_lookup_imap. Qed.

Lemma shouldShowInterrupt_true ist processed i :
  shouldShowInterrupt ist processed !! i = Some true <->
  is_Some ist /\ S i = length processed /\
  exists data, processed !! i = Some data /\
               m_type (pr_message data) = Some "ai".
Proof.
  rewrite shouldShowInterrupt_lookup. split.
  - destruct (processed !! i) as [data|] eqn:Hd; simpl; [|done].
    intros [= H]. apply andb_true_iff in H as [H Hai].
    apply andb_true_iff in H as [Hist Hlast].
    apply bool_decide_eq_true in Hai, Hist, Hlast.
    repeat split; [done|lia|]. by exists data.
  - intros (Hist & Hlen & data & -> & Hai). simpl. f_equal.
    rewrite !andb_true_iff.
    repeat split; apply bool_decide_eq_true; [done|lia|done].
Qed.

(** The flags depend on the messages of the entries only. *)
Lemma shouldShowInterrupt_ext ist p1 p2 :
  map pr_message p1 = map pr_message p2 ->
  shouldShowInterrupt ist p1 = shouldShowInterrupt ist p2.
Proof.
  intros Hm.
  assert (Hlen : length p1 = length p2).
  { apply (f_equal length) in Hm. by rewrite !length_map in Hm. }
  apply list_eq. intros i. rewrite !shouldShowInterrupt_lookup, Hlen.
  apply (f_equal (fun l => l !! i)) in Hm.
  change (map pr_message p1) with (pr_message <$> p1) in Hm.
  change (map pr_message p2) with (pr_message <$> p2) in Hm.
  rewrite !list_lookup_fmap in Hm.
  destruct (p1 !! i) as [d1|], (p2 !! i) as [d2|]; simpl in *; try done.
  injection Hm as ->. done.
Qed.

Lemma processedMessages_messages_without_tools rand messages :
  map pr_message (processedMessages rand messages) =
  map pr_message
    (processedMessages rand
       (List.filter (fun m => negb (is_tool m)) messages)).
Proof.
  unfold processedMessages. rewrite !with_avatars_messages, !map_map.
  rewrite !erase_entry_messages. f_equal.
  unfold build_messageMap. rewrite filter_valid_without_tools.
  by apply fold_process_without_tools.
Qed.

(** X17. The approval panel is rendered at most once, and only below the
    last processed message, when that message is an AI message and the hook
    returns an interrupt record.  Tool messages in the input have no
    influence on it: the panel is rendered below the same message, or below
    none, when they are left out. *)
Theorem interrupt_panel_at_most_once rand ist messages :
  let flags := shouldShowInterrupt ist (processedMessages rand messages) in
  (forall i j, flags !! i = Some true -> flags !! j = Some true -> i = j) /\
  (forall i, flags !! i = Some true ->
     is_Some ist /\
     exists data, last (processedMessages rand messages) = Some data /\
                  processedMessages rand messages !! i = Some data /\
                  m_type (pr_message data) = Some "ai") /\
  flags = shouldShowInterrupt ist
            (processedMessages rand
               (List.filter (fun m => negb (is_tool m)) messages)).
Proof.
  intros flags. split; [|split].
  - intros i j Hi Hj.
    apply shouldShowInterrupt_true in Hi as (_ & Hi & _).
    apply shouldShowInterrupt_true in Hj as (_ & Hj & _). lia.
  - intros i Hi.
    apply shouldShowInterrupt_true in Hi as (Hist & Hlen & data & Hd & Hai).
    split; [done|]. exists data. split; [|done].
    rewrite last_lookup, <- Hd. f_equal. lia.
  - apply shouldShowInterrupt_ext, processedMessages_messages_without_tools.
Qed.

Lemma interrupt_panel_at_most_once_witness :
  shouldShowInterrupt
    (Some (live_record closure_A (stream_of (Some interrupt_i1))
             interrupt_i1))
    (processedMessages (fun _ => "tool-0") [ai_with_call; tool_result])
  = [true].
Proof.
  destruct (interrupt_panel_at_most_once (fun _ => "tool-0")
              (Some (live_record closure_A (stream_of (Some interrupt_i1))
                       interrupt_i1))
              [ai_with_call; tool_result]) as (_ & _ & ->).
  reflexivity.
Defined.

(** * Sending a message *)

(** ** [trim] *)

Lemma trim_start_no_leading_space s : no_leading_space (trim_start s).
Proof.
  induction s as [|c s IH]; simpl; [done|].
  destruct (is_white_space c) eqn:Hc; [done|]. simpl. exact Hc.
Qed.

Lemma trim_start_id s : no_leading_space s -> trim_start s = s.
Proof. destruct s as [|c s]; simpl; [done|]. by intros ->. Qed.

Lemma trim_end_no_leading_space s :
  no_leading_space s -> no_leading_space (trim_end s).
Proof.
  destruct s as [|c s]; simpl; [done|]. intros Hc.
  destruct (trim_end s); [by rewrite Hc|done].
Qed.

Lemma trim_end_idem s : trim_end (trim_end s) = trim_end s.
Proof.
  induction s as [|c s IH]; simpl; [done|].
  destruct (trim_end s) as [|a t] eqn:E.
  - destruct (is_white_space c) eqn:Hc; simpl; [done|]. by rewrite Hc.
  - change (trim_end (String c (String a t)))
      with (match trim_end (String a t) with
            | EmptyString =>
                if is_white_space c then EmptyString else String c EmptyString
            | t' => String c t'
            end).
    by rewrite IH.
Qed.

Lemma trim_idem s : trim (trim s) = trim s.
Proof.
  unfold trim. rewrite (trim_start_id (trim_end _)).
  - apply trim_end_idem.
  - apply trim_end_no_leading_space, trim_start_no_leading_space.
Qed.

Lemma string_app_cons_ne s c t : s +:+ String c t <> "".
Proof. destruct s; done. Qed.

Lemma truthy_nonempty s : truthy (Some s) = true <-> s <> "".
Proof. destruct s; simpl; split; done. Qed.

Lemma truthy_empty s : truthy (Some s) = false <-> s = "".
Proof. destruct s; simpl; split; done. Qed.

(** ** [sendMessage] *)

Lemma fullMessage_eq message imageUrls :
  fullMessage message imageUrls = trim message +:+ suffix_of imageUrls.
Proof.
  unfold fullMessage, suffix_of.
  destruct imageUrls as [[|url urls]|]; simpl; by rewrite ?string_app_nil_r.
Qed.

Lemma fullMessage_empty message imageUrls :
  fullMessage message imageUrls = "" <->
  trim message = "" /\ no_images imageUrls = true.
Proof.
  rewrite fullMessage_eq. unfold suffix_of, no_images, image_suffix.
  destruct imageUrls as [[|url urls]|]; rewrite ?string_app_nil_r.
  - split; [done|]. by intros [? _].
  - split; [|by intros [_ ?]]. intros H. by apply string_app_cons_ne in H.
  - split; [done|]. by intros [? _].
Qed.

Lemma sendMessage_content_text message imageUrls :
  fullMessage message imageUrls <> "" ->
  sendMessage_content message imageUrls =
    ContentArray [text_part (fullMessage message imageUrls)].
Proof.
  intros H%truthy_nonempty. unfold sendMessage_content, contentParts.
  by rewrite H.
Qed.

Lemma sendMessage_content_blank message imageUrls :
  fullMessage message imageUrls = "" ->
  sendMessage_content message imageUrls = ContentString message.
Proof.
  intros H%truthy_empty. unfold sendMessage_content, contentParts.
  by rewrite H.
Qed.

Lemma extract_text_part text :
  extractStringFromContent (ContentArray [text_part text]) =
    match text with EmptyString => "" | _ => text end.
Proof.
  simpl. unfold or_else. destruct text; simpl; [done|].
  by rewrite string_app_nil_r.
Qed.

(** X18. Unless the trimmed message is empty and there are no image URLs,
    the content submitted is a single text part holding the trimmed message
    followed by the image list, and this text is what
    [extractStringFromMessageContent] reads back. Otherwise the content is
    the message as given, white space included, and not the empty string. *)
Theorem sendMessage_round_trip uuid message imageUrls :
  let sent := humanMessage uuid message imageUrls in
  let text := trim message +:+ suffix_of imageUrls in
  if bool_decide (trim message = "") && no_images imageUrls
  then m_content sent = ContentString message /\
       extractStringFromMessageContent sent = message
  else text <> "" /\
       m_content sent = ContentArray [text_part text] /\
       extractStringFromMessageContent sent = text.
Proof.
  intros sent text. subst sent text.
  unfold extractStringFromMessageContent. cbn [humanMessage m_content].
  rewrite <- fullMessage_eq.
  destruct (bool_decide (trim message = "") && no_images imageUrls) eqn:Hb.
  - apply andb_true_iff in Hb as [Ht Hn]. apply bool_decide_eq_true in Ht.
    rewrite sendMessage_content_blank; [done|].
    by apply fullMessage_empty.
  - assert (Hne : fullMessage message imageUrls <> "").
    { intros [Ht Hn]%fullMessage_empty.
      rewrite Hn, bool_decide_true in Hb; done. }
    rewrite sendMessage_content_text by done.
    repeat split; [done|]. rewrite extract_text_part.
    by destruct (fullMessage message imageUrls).
Qed.

(** ** [handleSubmit] *)

(** X19. When [handleSubmit] reaches [sendMessage], nothing is loading, and
    the content sent is a single non-empty text part: the trimmed input
    followed by the list of the uploaded images. [Promise.all] is taken to
    yield one URL per attached image. *)
Theorem handleSubmit_sends_one_text_part input uploadedImages isLoading
    uploads message imageUrls :
  (forall urls, uploads = Some urls -> length urls = uploadedImages) ->
  handleSubmit input uploadedImages isLoading uploads
    = Some (message, imageUrls) ->
  let text := trim input +:+ suffix_of imageUrls in
  isLoading = false /\
  text <> "" /\
  sendMessage_content message imageUrls = ContentArray [text_part text] /\
  (uploadedImages = 0 -> imageUrls = None) /\
  (0 < uploadedImages -> imageUrls = uploads).
Proof.
  intros Hlen. unfold handleSubmit.
  destruct (truthy (Some (trim input))) eqn:Ht; simpl;
    destruct isLoading; simpl; rewrite ?orb_true_r; try done.
  - assert (Hm : forall imgs,
              sendMessage_content (trim input) imgs =
              ContentArray [text_part (trim input +:+ suffix_of imgs)] /\
              trim input +:+ suffix_of imgs <> "").
    { intros imgs.
      assert (Hne : fullMessage (trim input) imgs <> "").
      { intros [He _]%fullMessage_empty. rewrite trim_idem in He.
        apply truthy_nonempty in Ht. done. }
      rewrite sendMessage_content_text by done.
      rewrite fullMessage_eq, trim_idem in Hne |- *. done. }
    destruct uploadedImages as [|n]; simpl.
    + intros [= <- <-]. destruct (Hm None) as [Hc Hne].
      repeat split; try done. lia.
    + destruct uploads as [urls|]; [|done].
      specialize (Hlen urls eq_refl).
      destruct urls as [|url urls]; [done|]. simpl.
      intros [= <- <-]. destruct (Hm (Some (url :: urls))) as [Hc Hne].
      repeat split; try done.
  - rewrite orb_false_r.
    destruct uploadedImages as [|n]; simpl; [done|].
    destruct uploads as [urls|]; [|done].
    specialize (Hlen urls eq_refl).
    destruct urls as [|url urls]; [done|]. simpl.
    intros [= <- <-].
    assert (Hne : fullMessage (trim input) (Some (url :: urls)) <> "").
    { intros [_ Hn]%fullMessage_empty. done. }
    pose proof (sendMessage_content_text _ _ Hne) as Hc.
    rewrite fullMessage_eq, trim_idem in Hne, Hc.
    repeat split; try done.
Qed.

Lemma handleSubmit_sends_one_text_part_witness :
  "Deploy it" +:+ suffix_of None <> "".
Proof.
  refine (proj1 (proj2 (handleSubmit_sends_one_text_part
            "  Deploy it " 0 false None "Deploy it" None _ _))).
  - intros urls Hu. discriminate Hu.
  - vm_compute. reflexivity.
Defined.

(** ** The optimistic update *)

Lemma map_set_fresh key v m :
  key ∉ map fst m -> map_set key v m = m ++ [(key, v)].
Proof.
  induction m as [|[k' v'] m IH]; simpl; [done|].
  intros Hk. apply not_elem_of_cons in Hk as [Hne Hk].
  rewrite bool_decide_false by done. by rewrite IH.
Qed.

Lemma process_all_keys rand l k :
  k ∈ map fst (fst (process_all rand l)) -> k ∈ map m_id l.
Proof.
  intros (kv & -> & Hkv)%list_elem_of_fmap.
  pose proof (process_all_ok rand l) as [_ Hall].
  destruct (proj1 (Forall_forall _ _) Hall kv Hkv) as [-> _].
  pose proof (fold_process_messages rand (fun m => m ∈ l) l ([], 0)) as Hin.
  apply list_elem_of_fmap. exists (e_message (snd kv)). split; [done|].
  apply (proj1 (Forall_forall _ _) (Hin ltac:(by apply Forall_forall)
                                        ltac:(constructor)) kv Hkv).
Qed.

Lemma filter_supported_ids l k :
  k ∈ map m_id (List.filter supported l) -> k ∈ map m_id l.
Proof.
  intros (m & -> & Hm)%list_elem_of_fmap.
  apply list_elem_of_In, List.filter_In in Hm as [Hm _].
  apply list_elem_of_fmap. exists m. split; [done|]. by apply list_elem_of_In.
Qed.

Lemma humanMessage_supported uuid message imageUrls :
  supported (humanMessage uuid message imageUrls) = true.
Proof. done. Qed.

(** The processed messages after a message with a fresh id has been
    appended. *)
Lemma processedMessages_fresh_human rand l hm :
  m_type hm = Some "human" ->
  m_id hm ∉ map m_id l ->
  map pr_message (processedMessages rand (l ++ [hm])) =
  map pr_message (processedMessages rand l) ++ [hm].
Proof.
  intros Hty Hfresh. unfold processedMessages. rewrite !with_avatars_messages.
  unfold build_messageMap, validMessages.
  assert (Hsup : supported hm = true).
  { unfold supported. by rewrite Hty. }
  rewrite List.filter_app. simpl. rewrite Hsup.
  fold (validMessages l). fold (process_all rand (validMessages l ++ [hm])).
  fold (process_all rand (validMessages l)).
  rewrite process_all_snoc.
  assert (Hkeys : m_id hm ∉ map fst (fst (process_all rand (validMessages l)))).
  { intros Hk%process_all_keys. apply Hfresh.
    by apply filter_supported_ids. }
  destruct (process_all rand (validMessages l)) as [m k]; cbn [fst] in *.
  destruct (process_message_cases rand hm m k)
    as [[Hs [tcs ->]]|[[Hs _]|[Hs _]]].
  - rewrite map_set_fresh by done. by rewrite !map_app.
  - unfold is_shown in Hs. rewrite Hty in Hs. done.
  - unfold is_shown in Hs. rewrite Hty in Hs. done.
Qed.

(** X20. Once the message just sent has been appended by the optimistic
    update, under an id no earlier message has, it is the last message
    rendered, and the approval panel is rendered below no message, whatever
    interrupt record the hook returns. *)
Theorem sent_message_hides_panel rand prev_messages uuid message imageUrls
    interruptState i :
  Some uuid ∉ map m_id (default [] prev_messages) ->
  let sent := humanMessage uuid message imageUrls in
  let processed :=
    processedMessages rand
      (filteredMessages (Some (optimisticValues prev_messages sent))) in
  pr_message <$> last processed = Some sent /\
  shouldShowInterrupt interruptState processed !! i <> Some true.
Proof.
  intros Hfresh sent processed.
  assert (Hmsgs : map pr_message processed =
            map pr_message
              (processedMessages rand
                 (List.filter supported (default [] prev_messages)))
            ++ [sent]).
  { subst processed. unfold filteredMessages, optimisticValues, rawMessages.
    change (default [] (Some ?x)) with x. rewrite List.filter_app.
    change (List.filter supported [sent]) with [sent].
    apply processedMessages_fresh_human; [done|].
    intros Hk. apply Hfresh. by apply filter_supported_ids. }
  assert (Hlast : pr_message <$> last processed = Some sent).
  { rewrite <- fmap_last. change (fmap pr_message processed)
      with (map pr_message processed). by rewrite Hmsgs, last_snoc. }
  split; [done|].
  rewrite shouldShowInterrupt_lookup.
  destruct (processed !! i) as [data|] eqn:Hd; simpl; [|done].
  intros [= H]. apply andb_true_iff in H as [H Hai].
  apply andb_true_iff in H as [_ Hl].
  apply bool_decide_eq_true in Hai, Hl.
  assert (Hi : last processed = Some data).
  { rewrite last_lookup. rewrite <- Hd. f_equal. lia. }
  rewrite Hi in Hlast. simpl in Hlast. injection Hlast as Hs.
  rewrite Hs in Hai. done.
Qed.

Lemma sent_message_hides_panel_witness :
  shouldShowInterrupt
    (Some (live_record closure_A (stream_of (Some interrupt_i1))
             interrupt_i1))
    (processedMessages (fun _ => "tool-0")
       (filteredMessages
          (Some (optimisticValues (Some [])
                   (humanMessage "u1" "hello" None))))) !! 0 <> Some true.
Proof.
  refine (proj2 (sent_message_hides_panel (fun _ => "tool-0") (Some []) "u1"
                   "hello" None _ 0 _)).
  simpl. apply not_elem_of_nil.
Defined.

(** ** [handleUpdateEvent] *)

Lemma fold_page_update_todos calls st :
  fst (fold_left page_update calls st) =
    default (fst st)
      (last (omap (fun c => match c with
                            | TodosUpdate t => Some t
                            | FilesUpdate _ => None
                            end) calls)).
Proof.
  revert st. induction calls as [|c calls IH] using rev_ind; intros st; [done|].
  rewrite fold_left_app, omap_app. simpl.
  destruct c as [t|f]; simpl.
  - by rewrite last_snoc.
  - by rewrite app_nil_r, IH.
Qed.

Lemma fold_page_update_files calls st :
  snd (fold_left page_update calls st) =
    default (snd st)
      (last (omap (fun c => match c with
                            | TodosUpdate _ => None
                            | FilesUpdate f => Some f
                            end) calls)).
Proof.
  revert st. induction calls as [|c calls IH] using rev_ind; intros st; [done|].
  rewrite fold_left_app, omap_app. simpl.
  destruct c as [t|f]; simpl.
  - by rewrite app_nil_r, IH.
  - by rewrite last_snoc.
Qed.

Lemma omap_flat_map {A B C} (f : B -> option C) (g : A -> list B)
    (h : A -> option C) (l : list A) :
  (forall a, omap f (g a) = option_list (h a)) ->
  omap f (flat_map g l) = omap h l.
Proof.
  intros Hg. induction l as [|a l IH]; simpl; [done|].
  rewrite omap_app, Hg, IH. by destruct (h a).
Qed.

(** X21. After an update event the page shows the todos of the last node, in
    the order of the event's entries, that reports todos, and likewise for
    the files; what no node reports is left as it was, and a later report
    replaces an earlier one as a whole. *)
Theorem update_event_last_report_wins data st :
  page_after_update data st =
    (default (fst st) (last (omap todos_of data)),
     default (snd st) (last (omap files_of data))).
Proof.
  unfold page_after_update.
  rewrite (surjective_pairing (fold_left _ _ _)).
  rewrite fold_page_update_todos, fold_page_update_files.
  unfold handleUpdateEvent.
  rewrite (omap_flat_map _ _ todos_of), (omap_flat_map _ _ files_of); [done| |].
  - intros [n [[[t|] [f|]]|]]; done.
  - intros [n [[[t|] [f|]]|]]; done.
Qed.
